(** * Custom-mode configuration loading: ModesDirectoryLoader

    A shallow embedding of [src/core/config/ModesDirectoryLoader.ts] (the
    directory scanner, the per-file loader and the per-directory aggregator),
    and of the precedence merge that the mode manager performs on top of it.
    With it: [maybeRemoveImageBlocks] of [src/api/transform/image-cleaning.ts],
    the logger and the rotation of its log file of
    [packages/vscode-mock/src/providers/CLILoggerProvider.ts], and
    [detectFormat] of the configuration provider of the command line.

    Conventions.
    - JavaScript strings are [string]; file names are byte strings.
    - A JavaScript [Map<string, V>] is a [gmap string V], a [Set<string>] a
      [gset string].
    - An [async] function returns a [Completion]: it either returns a value or
      throws an error carrying a message.  The directory walk is recursive on
      the file system, so it takes a fuel argument bounding the depth of the
      recursion; [OutOfFuel] is the third completion.
    - The file system ([fs/promises]), the YAML parser, the zod schema of a
      mode and [String.prototype.localeCompare] are collaborators of the
      loader: they are the variables of the section that holds it. *)

From stdpp Require Import gmap strings list sorting.
From Stdlib Require Import ZArith Ascii String OrderedTypeEx DecimalString.

Open Scope string_scope.
Open Scope list_scope.

(** ** Completions of asynchronous functions *)

Inductive Completion (A : Type) : Type :=
| Returned (a : A)
| Thrown (err : string)
| OutOfFuel.

Arguments Returned {A} a.
Arguments Thrown {A} err.
Arguments OutOfFuel {A}.

#[global] Instance Completion_ret : MRet Completion := fun A a => Returned a.

#[global] Instance Completion_bind : MBind Completion := fun A B k c =>
  match c with
  | Returned a => k a
  | Thrown err => Thrown err
  | OutOfFuel => OutOfFuel
  end.

(** [try { body } catch (err) { handler err }] *)
Definition try_catch {A : Type} (body : Completion A) (handler : string -> Completion A) : Completion A :=
  match body with
  | Returned a => Returned a
  | Thrown err => handler err
  | OutOfFuel => OutOfFuel
  end.

(** A call into a library ([fs/promises], [yaml]) either gives a value or
    fails with an error; [call] is the call site, where a failure is thrown. *)
Inductive Result (A : Type) : Type :=
| Ok (a : A)
| Err (err : string).

Arguments Ok {A} a.
Arguments Err {A} err.

Definition call {A : Type} (r : Result A) : Completion A :=
  match r with
  | Ok a => Returned a
  | Err err => Thrown err
  end.

(** ** JavaScript string operations used by the loader *)

Module Js.

(** [s.startsWith(searchString)] *)
Definition startsWith (s searchString : string) : bool := String.prefix searchString s.

Definition lower_ascii (c : ascii) : ascii :=
  let n := nat_of_ascii c in
  if (65 <=? n)%nat && (n <=? 90)%nat then ascii_of_nat (n + 32) else c.

(** [s.toLowerCase()] on the ASCII letters; other bytes are kept.  No
    character outside A-Z lower-cases to one of the letters of the allowed
    extensions, so the comparison with those is the one JavaScript makes. *)
Fixpoint toLowerCase (s : string) : string :=
  match s with
  | EmptyString => EmptyString
  | String c s' => String (lower_ascii c) (toLowerCase s')
  end.

(** [parts.join(sep)] *)
Fixpoint join (sep : string) (parts : list string) : string :=
  match parts with
  | [] => EmptyString
  | [p] => p
  | p :: ps => String.append p (String.append sep (join sep ps))
  end.

(** [a || b] on strings: the empty string is falsy. *)
Definition or_else (a b : string) : string :=
  match a with
  | EmptyString => b
  | _ => a
  end.

(** [s.slice(0, end)]: a negative [end] counts from the end of the string. *)
Definition slice_to (s : string) (end_ : Z) : string :=
  let len := Z.of_nat (String.length s) in
  let to := if (end_ <? 0)%Z then Z.max (len + end_) 0 else Z.min end_ len in
  String.substring 0 (Z.to_nat to) s.

(** An integer in a template string. *)
Definition number_string (n : Z) : string := NilZero.string_of_int (Z.to_int n).

End Js.

(** ** Node's [path.extname] (POSIX)

    The loop of Node's [lib/path.js], from the last character of the path to
    the first, with its five variables. *)

Module NodePath.

Record ExtState : Type := mkExtState {
  startDot : Z;
  startPart : Z;
  end_ : Z;
  matchedSlash : bool;
  preDotState : Z
}.

Definition ext_init : ExtState :=
  {| startDot := -1; startPart := 0; end_ := -1; matchedSlash := true; preDotState := 0 |}.

(** [n] is one more than the index [i] the loop is at. *)
Fixpoint ext_loop (path : string) (n : nat) (st : ExtState) : ExtState :=
  match n with
  | O => st
  | S i =>
      match String.get i path with
      | None => st
      | Some code =>
          if Ascii.eqb code "/"%char then
            if negb (matchedSlash st) then
              {| startDot := startDot st; startPart := Z.of_nat i + 1; end_ := end_ st;
                 matchedSlash := matchedSlash st; preDotState := preDotState st |}
            else ext_loop path i st
          else
            let st1 :=
              if (end_ st =? -1)%Z then
                {| startDot := startDot st; startPart := startPart st; end_ := Z.of_nat i + 1;
                   matchedSlash := false; preDotState := preDotState st |}
              else st in
            let st2 :=
              if Ascii.eqb code "."%char then
                if (startDot st1 =? -1)%Z then
                  {| startDot := Z.of_nat i; startPart := startPart st1; end_ := end_ st1;
                     matchedSlash := matchedSlash st1; preDotState := preDotState st1 |}
                else if negb (preDotState st1 =? 1)%Z then
                  {| startDot := startDot st1; startPart := startPart st1; end_ := end_ st1;
                     matchedSlash := matchedSlash st1; preDotState := 1 |}
                else st1
              else if negb (startDot st1 =? -1)%Z then
                {| startDot := startDot st1; startPart := startPart st1; end_ := end_ st1;
                   matchedSlash := matchedSlash st1; preDotState := -1 |}
              else st1 in
            ext_loop path i st2
      end
  end.

Definition extname (path : string) : string :=
  let st := ext_loop path (String.length path) ext_init in
  if (startDot st =? -1)%Z
     || (end_ st =? -1)%Z
     || (preDotState st =? 0)%Z
     || ((preDotState st =? 1)%Z
         && (startDot st =? end_ st - 1)%Z
         && (startDot st =? startPart st + 1)%Z)
  then EmptyString
  else String.substring (Z.to_nat (startDot st)) (Z.to_nat (end_ st - startDot st)) path.

End NodePath.

(** ** Data *)

(** A [Dirent] as [readdir(dir, { withFileTypes: true })] gives it; the loader
    reads its name and asks whether it is a directory. *)
Module Dirent.
Record t : Type := mk { name : string; isDirectory : bool }.
End Dirent.

Record FileEntry : Type := mkFileEntry {
  fullPath : string;
  relativePath : string
}.

Inductive ModeSource : Type := project | global.

(** [ModeConfig] of [@roo-code/types], with the fields the specification
    lists. *)
Record ModeConfig : Type := mkModeConfig {
  slug : string;
  name : string;
  roleDefinition : string;
  groups : list string;
  source : option ModeSource
}.

(** What [yaml.parse] returns. *)
#[warnings="-register-all"]
Inductive YamlValue : Type :=
| YNull
| YBool (b : bool)
| YNumber (z : Z)
| YString (s : string)
| YSeq (items : list YamlValue)
| YMap (fields : list (string * YamlValue)).

(** [!v] *)
Definition falsy (v : YamlValue) : bool :=
  match v with
  | YNull => true
  | YBool b => negb b
  | YNumber z => (z =? 0)%Z
  | YString s => match s with EmptyString => true | _ => false end
  | YSeq _ => false
  | YMap _ => false
  end.

(** [typeof v === "object"] *)
Definition typeof_object (v : YamlValue) : bool :=
  match v with
  | YNull | YSeq _ | YMap _ => true
  | YBool _ | YNumber _ | YString _ => false
  end.

(** [Array.isArray(v)] *)
Definition isArray (v : YamlValue) : bool :=
  match v with
  | YSeq _ => true
  | _ => false
  end.

(** A zod issue and the result of [schema.safeParse]. *)
Record Issue : Type := mkIssue { issue_path : list string; issue_message : string }.

Inductive SafeParse (A : Type) : Type :=
| Success (data : A)
| Failure (issues : list Issue).

Arguments Success {A} data.
Arguments Failure {A} issues.

#[global] Instance ModeSource_eq_dec : EqDecision ModeSource.
Proof. solve_decision. Defined.

#[global] Instance ModeConfig_eq_dec : EqDecision ModeConfig.
Proof. solve_decision. Defined.

#[global] Instance FileEntry_eq_dec : EqDecision FileEntry.
Proof. solve_decision. Defined.

(** ** [Array.prototype.sort]

    The sort is stable, and for a consistent comparator its result is the
    stable sorted arrangement of the array; insertion from the left computes
    that arrangement. *)

Section ArraySort.
Context {A : Type} (compareFn : A -> A -> Z).

Fixpoint insert_sorted (x : A) (l : list A) : list A :=
  match l with
  | [] => [x]
  | y :: l' => if (compareFn x y <? 0)%Z then x :: y :: l' else y :: insert_sorted x l'
  end.

Definition array_sort (l : list A) : list A :=
  foldl (fun acc x => insert_sorted x acc) [] l.

(** [a] may stand before [b] in a sorted array. *)
Definition ordered (a b : A) : Prop := (compareFn a b ≤ 0)%Z.

(** The comparator is consistent on the elements that satisfy [P]. *)
Definition consistent (P : A → Prop) : Prop :=
  (∀ a b, P a → P b → (0 ≤ compareFn a b)%Z → (compareFn b a ≤ 0)%Z)
  ∧ (∀ a b c, P a → P b → P c →
       (compareFn a b ≤ 0)%Z → (compareFn b c ≤ 0)%Z → (compareFn a c ≤ 0)%Z).

End ArraySort.

(** ** The loader *)

Module ModesDirectoryLoader.

(** Directories we never traverse into *)
Definition EXCLUDED_DIRS : gset string :=
  {[ ".git"; ".svn"; ".hg"; "node_modules"; "dist"; "build"; ".next"; ".cache";
     ".idea"; ".vscode"; ".DS_Store" ]}.

(** Files we never consider *)
Definition EXCLUDED_FILES : gset string := {[ ".DS_Store"; "Thumbs.db" ]}.

(** Allowed file extensions for YAML modes *)
Definition ALLOWED_EXTENSIONS : gset string := {[ ".yaml"; ".yml" ]}.

Definition quote : string := String (ascii_of_nat 34) EmptyString.

(** The message of the error thrown on a duplicate slug. *)
Definition duplicate_message (slug_ conflictPath fullPath_ : string) : string :=
  String.append "Duplicate mode slug detected: "
    (String.append quote (String.append slug_ (String.append quote
      (String.append ". Files: " (String.append conflictPath
        (String.append " and " fullPath_)))))).

(** [issues.map(i => (i.path.join(".") || "(root)") + ": " + i.message).join("; ")] *)
Definition issues_string (issues : list Issue) : string :=
  Js.join "; "
    (map (fun i => String.append (Js.or_else (Js.join "." (issue_path i)) "(root)")
                     (String.append ": " (issue_message i))) issues).

(** The collaborators of the loader. *)
Record Env : Type := mkEnv {
  (** [fs/promises] *)
  readdir : string -> Result (list Dirent.t);
  readFile : string -> Result string;
  (** [path] *)
  path_join : string -> string -> string;
  path_relative : string -> string -> string;
  path_basename : string -> string;
  (** [yaml] and the zod schema of [@roo-code/types] *)
  yaml_parse : string -> Result YamlValue;
  modeConfigSchema_safeParse : YamlValue -> SafeParse ModeConfig;
  (** [String.prototype.localeCompare] *)
  localeCompare : string -> string -> Z
}.

Section Loader.
Variable env : Env.

(** Any .yaml/.yml file that does not start with an underscore. *)
Definition shouldIncludeModeFile (fullPath_ relativePath_ : string) : bool :=
  let base := path_basename env fullPath_ in
  if Js.startsWith base "_" then false else true.

(** The body of [for (const entry of entries)] in [walk]; [walk] itself is
    the first argument, and [results] the array the scan pushes to. *)
Fixpoint walk_entries (walk : string -> list FileEntry -> Completion (list FileEntry))
    (rootDir dir : string) (entries : list Dirent.t) (results : list FileEntry)
    : Completion (list FileEntry) :=
  match entries with
  | [] => Returned results
  | entry :: rest =>
      let fullPath_ := path_join env dir (Dirent.name entry) in
      let relativePath_ := path_relative env rootDir fullPath_ in
      let visible :=
        if Dirent.isDirectory entry then
          (* Skip known excluded directories *)
          if bool_decide (Dirent.name entry ∈ EXCLUDED_DIRS) then
            walk_entries walk rootDir dir rest results
          else
            results' ← walk fullPath_ results;
            walk_entries walk rootDir dir rest results'
        else if bool_decide (Dirent.name entry ∈ EXCLUDED_FILES) then
          walk_entries walk rootDir dir rest results
        else
          let ext := Js.toLowerCase (NodePath.extname (Dirent.name entry)) in
          if negb (bool_decide (ext ∈ ALLOWED_EXTENSIONS)) then
            walk_entries walk rootDir dir rest results
          else if shouldIncludeModeFile fullPath_ relativePath_ then
            walk_entries walk rootDir dir rest
              (results ++ [mkFileEntry fullPath_ relativePath_])
          else walk_entries walk rootDir dir rest results in
      (* Skip hidden files/dirs (starting with .) *)
      if Js.startsWith (Dirent.name entry) "." && negb (String.eqb (Dirent.name entry) ".roo") then
        if Dirent.isDirectory entry then walk_entries walk rootDir dir rest results
        else visible
      else visible
  end.

(** [walk]: a directory that cannot be read is left without an error. *)
Fixpoint walk (fuel : nat) (rootDir dir : string) (results : list FileEntry)
    : Completion (list FileEntry) :=
  match fuel with
  | O => OutOfFuel
  | S fuel' =>
      match readdir env dir with
      | Err _ => Returned results
      | Ok entries => walk_entries (walk fuel' rootDir) rootDir dir entries results
      end
  end.

Definition scanForModeFiles (fuel : nat) (rootDir : string) : Completion (list FileEntry) :=
  walk fuel rootDir rootDir [].

(** Reads and parses a YAML mode file into a ModeConfig; the [catch]
    logs the error and returns [null]. *)
Definition loadAndValidateMode (filePath : string) : Completion (option ModeConfig) :=
  try_catch
    (raw ← call (readFile env filePath);
     parsed ← call (yaml_parse env raw);
     if falsy parsed || negb (typeof_object parsed) || isArray parsed then
       Thrown "Mode file must contain a single YAML object"
     else
       match modeConfigSchema_safeParse env parsed with
       | Failure issues =>
           Thrown (String.append "Schema validation failed: " (issues_string issues))
       | Success data => Returned (Some data)
       end)
    (fun _ => Returned None).

(** The loop of [loadModesFromDirectory] over the scanned files, with its
    two local variables [modes] and [slugToFile]. *)
Fixpoint load_files (files : list FileEntry) (modes : list ModeConfig)
    (slugToFile : gmap string string) : Completion (list ModeConfig) :=
  match files with
  | [] => Returned modes
  | f :: rest =>
      mode ← loadAndValidateMode (fullPath f);
      match mode with
      | None => load_files rest modes slugToFile
      | Some mode =>
          match slugToFile !! slug mode with
          | Some conflictPath =>
              Thrown (duplicate_message (slug mode) conflictPath (fullPath f))
          | None =>
              load_files rest (modes ++ [mode]) (<[slug mode := fullPath f]> slugToFile)
          end
      end
  end.

Definition compare_slug (a b : ModeConfig) : Z := localeCompare env (slug a) (slug b).

Definition loadModesFromDirectory (fuel : nat) (rootDir : string)
    : Completion (list ModeConfig) :=
  files ← scanForModeFiles fuel rootDir;
  modes ← load_files files [] ∅;
  Returned (array_sort compare_slug modes).

End Loader.

End ModesDirectoryLoader.

(** ** The precedence merge of the mode manager *)

Module CustomModesManager.



(** Simple lexical ordering of two strings, as a comparator result. *)
Definition lexical_compare (a b : string) : Z :=
  match String.compare a b with
  | Lt => -1
  | Eq => 0
  | Gt => 1
  end%Z.



End CustomModesManager.

(** ** Concrete collaborators

    A file system given by two tables, POSIX paths for a normalised root and
    plain entry names, a YAML parser given by a table of documents, and the
    file schema of a mode. *)

Module Fixture.

Definition posix_join (dir name_ : string) : string :=
  String.append dir (String.append "/" name_).

Fixpoint has_slash (p : string) : bool :=
  match p with
  | EmptyString => false
  | String c p' => Ascii.eqb c "/"%char || has_slash p'
  end.

Fixpoint posix_basename (p : string) : string :=
  match p with
  | EmptyString => EmptyString
  | String c p' =>
      if has_slash p' then posix_basename p'
      else if Ascii.eqb c "/"%char then p' else p
  end.

Definition posix_relative (from to : string) : string :=
  let prefix_ := String.append from "/" in
  if String.prefix prefix_ to
  then String.substring (String.length prefix_) (String.length to - String.length prefix_) to
  else to.

Definition table_lookup {A : Type} (table : list (string * A)) (key : string) : option A :=
  snd <$> List.find (fun kv => String.eqb (fst kv) key) table.

Definition as_string (v : YamlValue) : option string :=
  match v with
  | YString s => Some s
  | _ => None
  end.

Definition as_strings (v : YamlValue) : option (list string) :=
  match v with
  | YSeq items => mapM as_string items
  | _ => None
  end.

Definition as_source (v : option YamlValue) : option (option ModeSource) :=
  match v with
  | None => Some None
  | Some (YString "project") => Some (Some project)
  | Some (YString "global") => Some (Some global)
  | Some _ => None
  end.

(** The file schema: slug, name, roleDefinition and groups are required,
    source is optional. *)
Definition schema_safeParse (v : YamlValue) : SafeParse ModeConfig :=
  match v with
  | YMap fields =>
      match table_lookup fields "slug" ≫= as_string,
            table_lookup fields "name" ≫= as_string,
            table_lookup fields "roleDefinition" ≫= as_string,
            table_lookup fields "groups" ≫= as_strings,
            as_source (table_lookup fields "source") with
      | Some s, Some n, Some r, Some g, Some src =>
          Success {| slug := s; name := n; roleDefinition := r; groups := g; source := src |}
      | _, _, _, _, _ => Failure [mkIssue [] "Required"]
      end
  | _ => Failure [mkIssue [] "Expected object"]
  end.

(** The letter [c] in its other case; any other character is kept. *)
Definition swap_case (c : ascii) : ascii :=
  let n := nat_of_ascii c in
  if (65 <=? n)%nat && (n <=? 90)%nat then ascii_of_nat (n + 32)
  else if (97 <=? n)%nat && (n <=? 122)%nat then ascii_of_nat (n - 32)
  else c.

Fixpoint swap_cases (s : string) : string :=
  match s with
  | EmptyString => EmptyString
  | String c s' => String (swap_case c) (swap_cases s')
  end.

(** [a.localeCompare(b)] on strings of ASCII letters, digits and hyphens,
    which the slugs of the schema are.  The collation compares the strings
    without regard to case first (hyphen, digits, letters), and two strings
    with the same letters by case, lower case before upper case: alpha,
    Alpha, beta, Beta. *)
Definition collation_compare (a b : string) : Z :=
  match String.compare (Js.toLowerCase a) (Js.toLowerCase b) with
  | Lt => -1
  | Gt => 1
  | Eq => CustomModesManager.lexical_compare (swap_cases a) (swap_cases b)
  end%Z.

Definition env (dirs : list (string * list Dirent.t)) (files : list (string * string))
    (documents : list (string * YamlValue)) : ModesDirectoryLoader.Env :=
  {| ModesDirectoryLoader.readdir := fun p =>
       match table_lookup dirs p with
       | Some entries => Ok entries
       | None => Err "ENOENT"
       end;
     ModesDirectoryLoader.readFile := fun p =>
       match table_lookup files p with
       | Some text => Ok text
       | None => Err "ENOENT"
       end;
     ModesDirectoryLoader.path_join := posix_join;
     ModesDirectoryLoader.path_relative := posix_relative;
     ModesDirectoryLoader.path_basename := posix_basename;
     ModesDirectoryLoader.yaml_parse := fun raw =>
       match table_lookup documents raw with
       | Some v => Ok v
       | None => Err "YAMLParseError"
       end;
     ModesDirectoryLoader.modeConfigSchema_safeParse := schema_safeParse;
     ModesDirectoryLoader.localeCompare := collation_compare |}.

Definition file (n : string) : Dirent.t := Dirent.mk n false.
Definition dir (n : string) : Dirent.t := Dirent.mk n true.

(** The document of a valid mode. *)
Definition mode_doc (slug_ name_ : string) : YamlValue :=
  YMap [("slug", YString slug_); ("name", YString name_);
        ("roleDefinition", YString "role"); ("groups", YSeq [YString "read"])].

Definition mode (slug_ name_ : string) : ModeConfig :=
  {| slug := slug_; name := name_; roleDefinition := "role"; groups := ["read"]; source := None |}.

Definition documents : list (string * YamlValue) :=
  [ ("alpha", mode_doc "alpha" "Alpha");
    ("beta", mode_doc "beta" "Beta");
    ("gamma", mode_doc "gamma" "Gamma");
    ("delta", mode_doc "delta" "Delta");
    ("dup-1", mode_doc "dup" "Duplicate");
    ("dup-2", mode_doc "dup" "Duplicate 2");
    ("slug-only", YMap [("slug", YString "dup")]);
    ("a-list", YSeq [mode_doc "gamma" "Gamma"]);
    ("a-scalar", YString "gamma") ].

(** Two files with the same slug. *)
Definition dup_env : ModesDirectoryLoader.Env :=
  env [("/r", [file "a.yaml"; file "b.yaml"])]
      [("/r/a.yaml", "dup-1"); ("/r/b.yaml", "dup-2")] documents.

Definition dup_files : list FileEntry :=
  [mkFileEntry "/r/a.yaml" "a.yaml"; mkFileEntry "/r/b.yaml" "b.yaml"].

(** The same two files, the second with the slug only: it fails the schema. *)
Definition half_env : ModesDirectoryLoader.Env :=
  env [("/r", [file "a.yaml"; file "b.yaml"])]
      [("/r/a.yaml", "dup-1"); ("/r/b.yaml", "slug-only")] documents.

(** A file that does not parse between two files that load. *)
Definition mixed_env : ModesDirectoryLoader.Env :=
  env [("/r", [file "good.yaml"; file "bad.yaml"; file "ok.yaml"])]
      [("/r/good.yaml", "beta"); ("/r/bad.yaml", ":::: this is not yaml :::");
       ("/r/ok.yaml", "alpha")] documents.

(** A tree with excluded directories, a directory that cannot be read, and
    files of every kind; each file holds a valid mode. *)
Definition tree_env : ModesDirectoryLoader.Env :=
  env [("/r", [dir "node_modules"; dir ".git"; dir "locked"; file "notes.txt";
               file "_draft.yaml"; file "MODE.YAML"; file "mode.Yml"; dir "sub"]);
       ("/r/node_modules", [file "c.yaml"]);
       ("/r/.git", [file "d.yaml"]);
       ("/r/sub", [file "b.yml"])]
      [("/r/node_modules/c.yaml", "delta"); ("/r/.git/d.yaml", "delta");
       ("/r/notes.txt", "delta"); ("/r/_draft.yaml", "delta");
       ("/r/MODE.YAML", "beta"); ("/r/mode.Yml", "alpha"); ("/r/sub/b.yml", "gamma")]
      documents.

Definition tree_files : list FileEntry :=
  [mkFileEntry "/r/MODE.YAML" "MODE.YAML"; mkFileEntry "/r/mode.Yml" "mode.Yml";
   mkFileEntry "/r/sub/b.yml" "sub/b.yml"].

(** Two files, and the same directory listed in the other order. *)
Definition order_env : ModesDirectoryLoader.Env :=
  env [("/r", [file "z.yaml"; file "a.yaml"])]
      [("/r/z.yaml", "beta"); ("/r/a.yaml", "alpha")] documents.

Definition order_readdir' (p : string) : Result (list Dirent.t) :=
  match table_lookup [("/r", [file "a.yaml"; file "z.yaml"])] p with
  | Some entries => Ok entries
  | None => Err "ENOENT"
  end.

(** The two files of [dup_env] listed in the other order. *)
Definition dup_readdir' (p : string) : Result (list Dirent.t) :=
  match table_lookup [("/r", [file "b.yaml"; file "a.yaml"])] p with
  | Some entries => Ok entries
  | None => Err "ENOENT"
  end.

(** Four modes whose slugs differ in their letters or in their case only. *)
Definition case_documents : list (string * YamlValue) :=
  [ ("lower-alpha", mode_doc "alpha" "Alpha, lower case");
    ("upper-alpha", mode_doc "Alpha" "Alpha, upper case");
    ("lower-beta", mode_doc "beta" "Beta, lower case");
    ("upper-beta", mode_doc "Beta" "Beta, upper case") ].

Definition case_env : ModesDirectoryLoader.Env :=
  env [("/r", [file "1.yaml"; file "2.yaml"; file "3.yaml"; file "4.yaml"])]
      [("/r/1.yaml", "upper-beta"); ("/r/2.yaml", "lower-alpha");
       ("/r/3.yaml", "upper-alpha"); ("/r/4.yaml", "lower-beta")] case_documents.

Definition case_readdir' (p : string) : Result (list Dirent.t) :=
  match table_lookup [("/r", [file "4.yaml"; file "3.yaml"; file "2.yaml"; file "1.yaml"])] p with
  | Some entries => Ok entries
  | None => Err "ENOENT"
  end.

Definition case_modes : list ModeConfig :=
  [mode "alpha" "Alpha, lower case"; mode "Alpha" "Alpha, upper case";
   mode "beta" "Beta, lower case"; mode "Beta" "Beta, upper case"].


End Fixture.

(** * Properties of the loader *)

Import ModesDirectoryLoader.

(** ** The per-file loader *)

(** The file at [filePath] can be read and its content is in error: the text
    does not parse, or parses to something that is not a single mapping, or
    the mapping fails the schema. *)
Definition content_error (env : Env) (filePath : string) : bool :=
  match readFile env filePath with
  | Err _ => false
  | Ok raw =>
      match yaml_parse env raw with
      | Err _ => true
      | Ok parsed =>
          if falsy parsed || negb (typeof_object parsed) || isArray parsed then true
          else match modeConfigSchema_safeParse env parsed with
               | Failure _ => true
               | Success _ => false
               end
      end
  end.

(** The mode the per-file loader gives for a file, if any. *)
Definition loaded (env : Env) (f : FileEntry) : option ModeConfig :=
  match loadAndValidateMode env (fullPath f) with
  | Returned (Some m) => Some m
  | _ => None
  end.

(** The modes of the files that load, in the order of the files. *)
Definition loaded_modes (env : Env) (files : list FileEntry) : list ModeConfig :=
  omap (loaded env) files.

(** Two different files of the list, the first before the second, load to
    modes with the slug [s]. *)
Definition conflict (env : Env) (files : list FileEntry) (i j : nat) (s : string) : Prop :=
  i < j ∧ ∃ f g m n, files !! i = Some f ∧ files !! j = Some g
    ∧ loaded env f = Some m ∧ loaded env g = Some n ∧ slug m = s ∧ slug n = s.

(** What one turn of the loop of [walk] does with an entry: it goes on to
    the next entry, walks into the directory, or pushes the file. *)
Inductive Action : Type := Skip | Descend | Push.

Definition hidden (entry : Dirent.t) : bool :=
  Js.startsWith (Dirent.name entry) "." && negb (String.eqb (Dirent.name entry) ".roo").

Definition extension_allowed (name_ : string) : bool :=
  bool_decide (Js.toLowerCase (NodePath.extname name_) ∈ ALLOWED_EXTENSIONS).

Definition action (env : Env) (dir : string) (entry : Dirent.t) : Action :=
  if Dirent.isDirectory entry then
    if hidden entry || bool_decide (Dirent.name entry ∈ EXCLUDED_DIRS) then Skip else Descend
  else
    if bool_decide (Dirent.name entry ∈ EXCLUDED_FILES)
       || negb (extension_allowed (Dirent.name entry))
       || Js.startsWith (path_basename env (path_join env dir (Dirent.name entry))) "_"
    then Skip else Push.

(** The entry of the results for the file [name_] of the directory [dir]. *)
Definition file_entry (env : Env) (rootDir dir name_ : string) : FileEntry :=
  mkFileEntry (path_join env dir name_)
              (path_relative env rootDir (path_join env dir name_)).

(** A walker that adds to the results it is given, whatever they are. *)
Definition appends (walk : string → list FileEntry → Completion (list FileEntry)) : Prop :=
  ∀ p results, walk p results = (r ← walk p []; Returned (results ++ r)).

(** [msg] is the message of a duplicate-slug error that names two files of
    the list, the first before the second, which load to the same slug. *)
Definition duplicate_error (env : Env) (files : list FileEntry) (msg : string) : Prop :=
  ∃ i j f g s, conflict env files i j s ∧ files !! i = Some f ∧ files !! j = Some g
    ∧ msg = duplicate_message s (fullPath f) (fullPath g).

(** The text [part] stands somewhere in the message [msg]. *)
Definition names (msg part : string) : Prop :=
  ∃ before after, msg = String.append before (String.append part after).

(** What [slugToFile] holds once the files of [seen] are processed. *)
Definition tracks (env : Env) (seen : list FileEntry) (slugToFile : gmap string string) : Prop :=
  (∀ s p, slugToFile !! s = Some p →
     ∃ i f m, seen !! i = Some f ∧ fullPath f = p ∧ loaded env f = Some m ∧ slug m = s)
  ∧ (∀ i f m, seen !! i = Some f → loaded env f = Some m → is_Some (slugToFile !! slug m))
  ∧ (∀ i j s, ¬ conflict env seen i j s).

(** [dir] is the directory that the chain of directory names [chain] leads
    to from [rootDir], each name being listed as a directory in the listing
    of the one before. *)
Inductive reaches (env : Env) (rootDir : string) : list string → string → Prop :=
| reaches_root : reaches env rootDir [] rootDir
| reaches_sub chain dir entries entry :
    reaches env rootDir chain dir →
    readdir env dir = Ok entries →
    entry ∈ entries →
    Dirent.isDirectory entry = true →
    reaches env rootDir (chain ++ [Dirent.name entry]) (path_join env dir (Dirent.name entry)).

(** [f] is the entry of the results for the file [name_], listed as a file
    in the directory that [chain] leads to from [rootDir]. *)
Definition located (env : Env) (rootDir : string) (chain : list string) (name_ : string)
    (f : FileEntry) : Prop :=
  ∃ dir entries, reaches env rootDir chain dir ∧ readdir env dir = Ok entries
    ∧ Dirent.mk name_ false ∈ entries ∧ f = file_entry env rootDir dir name_.

(** A directory name the walk goes through: not excluded, and not hidden
    unless it is .roo. *)
Definition walkable (d : string) : Prop :=
  (d ∉ EXCLUDED_DIRS) ∧ (Js.startsWith d "." = true → d = ".roo").

(** A candidate mode file: it lies under walkable directories only, it is
    not an excluded file, its extension is allowed, and its base name does
    not start with an underscore. *)
Definition candidate (env : Env) (rootDir : string) (f : FileEntry) : Prop :=
  ∃ chain name_, located env rootDir chain name_ f
    ∧ Forall walkable chain
    ∧ (name_ ∉ EXCLUDED_FILES)
    ∧ Js.toLowerCase (NodePath.extname name_) ∈ ALLOWED_EXTENSIONS
    ∧ Js.startsWith (path_basename env (fullPath f)) "_" = false.

(** What the entry [entry] of [dir] adds to the results. *)
Definition contribution (env : Env) (walk : string → list FileEntry → Completion (list FileEntry))
    (rootDir dir : string) (entry : Dirent.t) : Completion (list FileEntry) :=
  match action env dir entry with
  | Skip => Returned []
  | Descend => walk (path_join env dir (Dirent.name entry)) []
  | Push => Returned [file_entry env rootDir dir (Dirent.name entry)]
  end.

(** The same collaborators, with another [readdir]. *)
Definition with_readdir (env : Env) (readdir' : string → Result (list Dirent.t)) : Env :=
  {| readdir := readdir';
     readFile := readFile env;
     path_join := path_join env;
     path_relative := path_relative env;
     path_basename := path_basename env;
     yaml_parse := yaml_parse env;
     modeConfigSchema_safeParse := modeConfigSchema_safeParse env;
     localeCompare := localeCompare env |}.

(** Two listings of a directory with the same entries, in any order. *)
Definition same_listing (r1 r2 : Result (list Dirent.t)) : Prop :=
  match r1, r2 with
  | Ok l1, Ok l2 => l1 ≡ₚ l2
  | Err _, Err _ => True
  | _, _ => False
  end.

(** A mode that the schema accepts. *)
Definition validated (env : Env) (m : ModeConfig) : Prop :=
  ∃ v, modeConfigSchema_safeParse env v = Success m.

(** [localeCompare] is a consistent comparator, and it tells apart the
    different slugs of the modes that the schema accepts. *)
Definition collates_slugs (env : Env) : Prop :=
  consistent (compare_slug env) (fun _ => True)
  ∧ ∀ m1 m2, validated env m1 → validated env m2 →
      ordered (compare_slug env) m1 m2 → ordered (compare_slug env) m2 m1 →
      slug m1 = slug m2.

(** The tree under [dir] is less than [fuel] directories deep, counting the
    directories the walk goes into. *)
Inductive shallow (env : Env) : nat → string → Prop :=
| shallow_unreadable fuel dir err :
    readdir env dir = Err err → shallow env (S fuel) dir
| shallow_listing fuel dir entries :
    readdir env dir = Ok entries →
    (∀ entry, entry ∈ entries → action env dir entry = Descend →
       shallow env fuel (path_join env dir (Dirent.name entry))) →
    shallow env (S fuel) dir.

(** ** Image blocks of a conversation: [src/api/transform/image-cleaning.ts] *)

Module ImageCleaning.

Section Messages.
(** The values of the properties that the function does not read, and a
    string as such a value. *)
Variable Value : Type.
Variable string_value : string → Value.

(** A content block: its [type] and its other properties. *)
Record Block : Type := mkBlock {
  block_type : string;
  block_props : list (string * Value)
}.

(** [string | Array<Block>] *)
Inductive Content : Type :=
| Text (s : string)
| Blocks (blocks : list Block).

(** A message: its [content] and its other properties (role, ts, ...). *)
Record ApiMessage : Type := mkApiMessage {
  content : Content;
  message_props : list (string * Value)
}.

(** What [fetchModel().info] says about images; the property is optional. *)
Record ModelInfo : Type := mkModelInfo { supportsImages : option bool }.

(** [!supportsImages] *)
Definition not_supported (info : ModelInfo) : bool :=
  match supportsImages info with
  | Some true => false
  | Some false | None => true
  end.

Definition image_placeholder : Block :=
  mkBlock "text" [("text", string_value "[Referenced image in conversation]")].

Definition clean_block (block : Block) : Block :=
  if String.eqb (block_type block) "image" then image_placeholder else block.

(** Removes image blocks from messages if they are not supported by the Api
    Handler; [fetchModel] is the result of the call of the handler. *)
Definition maybeRemoveImageBlocks (messages : list ApiMessage) (fetchModel : Result ModelInfo)
    : Completion (list ApiMessage) :=
  model ← call fetchModel;
  Returned
    (map (fun message =>
            let content_ :=
              match content message with
              | Blocks blocks =>
                  if not_supported model then Blocks (map clean_block blocks)
                  else Blocks blocks
              | Text s => Text s
              end in
            mkApiMessage content_ (message_props message))
         messages).

(** The blocks of a message; a text content has none. *)
Definition blocks_of (message : ApiMessage) : list Block :=
  match content message with
  | Blocks blocks => blocks
  | Text _ => []
  end.

(** [message'] is [message] with its image blocks, and only them, replaced
    by the placeholder, each in its place. *)
Definition cleaned (message message' : ApiMessage) : Prop :=
  message_props message' = message_props message
  ∧ match content message, content message' with
    | Text s, Text s' => s = s'
    | Blocks blocks, Blocks blocks' =>
        Forall2 (fun b b' => if String.eqb (block_type b) "image"
                             then b' = image_placeholder else b' = b) blocks blocks'
    | _, _ => False
    end.

End Messages.

Arguments mkBlock {Value} _ _.
Arguments block_type {Value} _.
Arguments block_props {Value} _.
Arguments Text {Value} _.
Arguments Blocks {Value} _.
Arguments mkApiMessage {Value} _ _.
Arguments content {Value} _.
Arguments message_props {Value} _.
Arguments image_placeholder {Value} _.
Arguments clean_block {Value} _ _.
Arguments maybeRemoveImageBlocks {Value} _ _ _.
Arguments blocks_of {Value} _.
Arguments cleaned {Value} _ _ _.

End ImageCleaning.

(** ** The logger of the command line:
    [packages/vscode-mock/src/providers/CLILoggerProvider.ts] *)

Module CLILogger.

(** [LogLevel] of [types.ts]; a level is a number, and [setLevel] takes any. *)
Definition Debug : Z := 0.
Definition Info : Z := 1.
Definition Warn : Z := 2.
Definition Error : Z := 3.

(** [LogLevel[level] || "UNKNOWN"] *)
Definition level_name (level : Z) : string :=
  match level with
  | 0 => "Debug"
  | 1 => "Info"
  | 2 => "Warn"
  | 3 => "Error"
  | _ => "UNKNOWN"
  end%Z.

Section Logger.
(** A [Date] with [toISOString], and the values of the metadata. *)
Variable Time : Type.
Variable toISOString : Time → string.
Variable Value : Type.

Record LogEntry : Type := mkLogEntry {
  entry_level : Z;
  entry_message : string;
  entry_timestamp : Time;
  entry_meta : gmap string Value;
  entry_error : option string
}.

(** What a transport does when it writes. *)
Inductive Output : Type :=
| ConsoleLog (text : string) (meta : gmap string Value)
| ConsoleError (text : string) (meta : gmap string Value)
| Written (transport : string) (entry : LogEntry).

(** [LogTransport]: the logger calls [write] and nothing else when it logs. *)
Record LogTransport : Type := mkLogTransport {
  transport_name : string;
  write : LogEntry → list Output
}.

(** [new ConsoleTransport(level)]; [enabled] is a field that starts true. *)
Definition ConsoleTransport_write (level : Z) (enabled : bool) (entry : LogEntry) : list Output :=
  if negb enabled || (entry_level entry <? level)%Z then []
  else
    let timestamp := toISOString (entry_timestamp entry) in
    let levelName := level_name (entry_level entry) in
    let formattedMessage :=
      String.append "[" (String.append timestamp (String.append "] "
        (String.append levelName (String.append ": " (entry_message entry))))) in
    if (Error <=? entry_level entry)%Z
    then [ConsoleError formattedMessage (entry_meta entry)]
    else [ConsoleLog formattedMessage (entry_meta entry)].

Definition ConsoleTransport (level : Z) : LogTransport :=
  mkLogTransport "console" (ConsoleTransport_write level true).

(** The fields of [CLILoggerProvider] that logging reads. *)
Record Logger : Type := mkLogger {
  level : Z;
  enabled : bool;
  transports : list LogTransport;
  context : gmap string Value
}.

(** [{ ...context, ...meta }] *)
Definition spread (context meta : gmap string Value) : gmap string Value := meta ∪ context.

Definition new_CLILoggerProvider (level_ : Z) : Logger :=
  mkLogger level_ true [ConsoleTransport level_] ∅.

(** Every transport is called, in the order of the array. *)
Definition writeToTransports (logger : Logger) (entry : LogEntry) : list Output :=
  flat_map (fun transport => write transport entry) (transports logger).

Definition log (logger : Logger) (now : Time) (level_ : Z) (message : string)
    (meta : gmap string Value) : list Output :=
  if negb (enabled logger) || (level_ <? level logger)%Z then []
  else writeToTransports logger
         (mkLogEntry level_ message now (spread (context logger) meta) None).

Definition debug logger now message meta := log logger now Debug message meta.
Definition info logger now message meta := log logger now Info message meta.
Definition warn logger now message meta := log logger now Warn message meta.

Definition error (logger : Logger) (now : Time) (message : string) (error_ : option string)
    (meta : gmap string Value) : list Output :=
  writeToTransports logger
    (mkLogEntry Error message now (spread (context logger) meta) error_).

Definition child (logger : Logger) (context_ : gmap string Value) : Logger :=
  let childLogger := new_CLILoggerProvider (level logger) in
  mkLogger (level childLogger) (enabled logger) (transports logger)
           (spread (context logger) context_).

Definition setLevel (logger : Logger) (level_ : Z) : Logger :=
  mkLogger level_ (enabled logger) (transports logger) (context logger).

Definition setEnabled (logger : Logger) (enabled_ : bool) : Logger :=
  mkLogger (level logger) enabled_ (transports logger) (context logger).

Definition isLevelEnabled (logger : Logger) (level_ : Z) : bool :=
  enabled logger && (level logger <=? level_)%Z.

Definition addTransport (logger : Logger) (transport : LogTransport) : Logger :=
  mkLogger (level logger) (enabled logger) (transports logger ++ [transport]) (context logger).

Definition clearTransports (logger : Logger) : Logger :=
  mkLogger (level logger) (enabled logger) [] (context logger).

(** The line the console transport prints for a message. *)
Definition console_line (now : Time) (level_ : Z) (message : string) : string :=
  String.append "[" (String.append (toISOString now) (String.append "] "
    (String.append (level_name level_) (String.append ": " message)))).

End Logger.

Arguments mkLogEntry {Time Value} _ _ _ _ _.
Arguments entry_level {Time Value} _.
Arguments entry_message {Time Value} _.
Arguments entry_timestamp {Time Value} _.
Arguments entry_meta {Time Value} _.
Arguments entry_error {Time Value} _.
Arguments ConsoleLog {Time Value} _ _.
Arguments ConsoleError {Time Value} _ _.
Arguments Written {Time Value} _ _.
Arguments mkLogTransport {Time Value} _ _.
Arguments transport_name {Time Value} _.
Arguments write {Time Value} _ _.
Arguments ConsoleTransport_write {Time} toISOString {Value} _ _ _.
Arguments ConsoleTransport {Time} toISOString {Value} _.
Arguments mkLogger {Time Value} _ _ _ _.
Arguments level {Time Value} _.
Arguments enabled {Time Value} _.
Arguments transports {Time Value} _.
Arguments context {Time Value} _.
Arguments spread {Value} _ _.
Arguments new_CLILoggerProvider {Time} toISOString {Value} _.
Arguments writeToTransports {Time Value} _ _.
Arguments log {Time Value} _ _ _ _ _.
Arguments debug {Time Value} _ _ _ _.
Arguments info {Time Value} _ _ _ _.
Arguments warn {Time Value} _ _ _ _.
Arguments error {Time Value} _ _ _ _ _.
Arguments child {Time} toISOString {Value} _ _.
Arguments setLevel {Time Value} _ _.
Arguments setEnabled {Time Value} _ _.
Arguments isLevelEnabled {Time Value} _ _.
Arguments addTransport {Time Value} _ _.
Arguments clearTransports {Time Value} _.
Arguments console_line {Time} toISOString _ _ _.

End CLILogger.

(** ** The format of a configuration file:
    [detectFormat] of the configuration provider of the command line *)

Module CLIConfigurationProvider.

(** [enum ConfigurationFormat] of [types.ts]. *)
Inductive ConfigurationFormat : Type := JSON | YAML | TOML.

(** [ConfigurationFormat.ENV]: the enum has no member of this name, so the
    property access gives [undefined], which is [None] here. *)
Definition ConfigurationFormat_ENV : option ConfigurationFormat := None.

(** What [detectFormat] returns: a member of the enum, or [undefined]. *)
Definition detectFormat (filePath : string) : option ConfigurationFormat :=
  let ext := Js.toLowerCase (NodePath.extname filePath) in
  if String.eqb ext ".yaml" || String.eqb ext ".yml" then Some YAML
  else if String.eqb ext ".env" then ConfigurationFormat_ENV
  else Some JSON.

End CLIConfigurationProvider.

(** ** The rotation of a log file: [FileTransport.rotateFiles] of
    [CLILoggerProvider.ts] *)

Module FileTransport.

(** The calls of [fs/promises] that the rotation makes; each is in a [try]
    of its own whose [catch] is empty, so the calls and their order do not
    depend on what the calls do. *)
Inductive FsCall : Type :=
| Unlink (file : string)
| Rename (oldPath newPath : string).

Section Rotation.
Variable filename : string.
(** [maxFiles], an integer. *)
Variable maxFiles : Z.

Definition ext : string := NodePath.extname filename.
Definition base : string := Js.slice_to filename (- Z.of_nat (String.length ext)).

(** [base + "." + i + ext] *)
Definition generation (i : Z) : string :=
  String.append base (String.append "." (String.append (Js.number_string i) ext)).

(** [for (let i = ...; i >= 1; i--)], from [i] down. *)
Fixpoint rotate_from (i : nat) : list FsCall :=
  match i with
  | O => []
  | S i' =>
      let currentFile := if (Z.of_nat i =? 1)%Z then filename else generation (Z.of_nat i) in
      let nextFile := generation (Z.of_nat i + 1) in
      Rename currentFile nextFile :: rotate_from i'
  end.

Definition rotateFiles : list FsCall :=
  let oldestFile := generation maxFiles in
  Unlink oldestFile :: rotate_from (Z.to_nat (maxFiles - 1)).

End Rotation.

End FileTransport.

(** ** Paths and their parts, for the facts about [extname] *)

(** Whether the character [c] occurs in [s]. *)
Fixpoint has_char (c : ascii) (s : string) : bool :=
  match s with
  | EmptyString => false
  | String c' s' => Ascii.eqb c' c || has_char c s'
  end.

(** A string without a slash and without a dot. *)
Definition plain (s : string) : Prop := has_char "/" s = false ∧ has_char "." s = false.

(** Two characters that are equal, or the same ASCII letter in its two
    cases. *)
Definition same_letter (c c' : ascii) : bool :=
  let n := nat_of_ascii c in
  let m := nat_of_ascii c' in
  (n =? m)%nat
  || ((65 <=? n)%nat && (n <=? 90)%nat && (m =? n + 32)%nat)
  || ((65 <=? m)%nat && (m <=? 90)%nat && (n =? m + 32)%nat).

(** Two strings that are equal up to the case of their ASCII letters. *)
Fixpoint same_ignoring_case (a b : string) : bool :=
  match a, b with
  | EmptyString, EmptyString => true
  | String c a', String c' b' => same_letter c c' && same_ignoring_case a' b'
  | _, _ => false
  end.

(** What comes before the last part of a path: nothing, or a directory and
    its slash. *)
Definition at_directory (prefix : string) : Prop :=
  prefix = "" ∨ ∃ dir, prefix = String.append dir "/".

(** The first character the loop of [extname] meets that is not a slash
    fixes [end]. *)
Definition mark_end (e : Z) (st : NodePath.ExtState) : NodePath.ExtState :=
  if (NodePath.end_ st =? -1)%Z then
    {| NodePath.startDot := NodePath.startDot st;
       NodePath.startPart := NodePath.startPart st;
       NodePath.end_ := e;
       NodePath.matchedSlash := false;
       NodePath.preDotState := NodePath.preDotState st |}
  else st.

Definition with_preDotState (p : Z) (st : NodePath.ExtState) : NodePath.ExtState :=
  {| NodePath.startDot := NodePath.startDot st;
     NodePath.startPart := NodePath.startPart st;
     NodePath.end_ := NodePath.end_ st;
     NodePath.matchedSlash := NodePath.matchedSlash st;
     NodePath.preDotState := p |}.

Definition with_startPart (p : Z) (st : NodePath.ExtState) : NodePath.ExtState :=
  {| NodePath.startDot := NodePath.startDot st;
     NodePath.startPart := p;
     NodePath.end_ := NodePath.end_ st;
     NodePath.matchedSlash := NodePath.matchedSlash st;
     NodePath.preDotState := NodePath.preDotState st |}.

(** What [extname] returns, from the state its loop ends in. *)
Definition ext_result (path : string) (st : NodePath.ExtState) : string :=
  if (NodePath.startDot st =? -1)%Z
     || (NodePath.end_ st =? -1)%Z
     || (NodePath.preDotState st =? 0)%Z
     || ((NodePath.preDotState st =? 1)%Z
         && (NodePath.startDot st =? NodePath.end_ st - 1)%Z
         && (NodePath.startDot st =? NodePath.startPart st + 1)%Z)
  then EmptyString
  else String.substring (Z.to_nat (NodePath.startDot st))
                        (Z.to_nat (NodePath.end_ st - NodePath.startDot st)) path.

(** The path a call of the rotation takes a file away from. *)
Definition vacated (call : FileTransport.FsCall) : string :=
  match call with
  | FileTransport.Unlink file => file
  | FileTransport.Rename oldPath _ => oldPath
  end.

(** The paths a call of the rotation names. *)
Definition paths (call : FileTransport.FsCall) : list string :=
  match call with
  | FileTransport.Unlink file => [file]
  | FileTransport.Rename oldPath newPath => [oldPath; newPath]
  end.

(** ** Examples for the image blocks, the logger and the rotation *)

Module Examples.

(** The listings of [Fixture.order_env], and one more of a directory outside
    its tree. *)
Definition elsewhere_readdir (p : string) : Result (list Dirent.t) :=
  if String.eqb p "/elsewhere" then Ok [Fixture.file "x.yaml"]
  else readdir Fixture.order_env p.

(** The other properties of blocks and messages hold strings. *)
Definition image_block : ImageCleaning.Block string :=
  ImageCleaning.mkBlock "image" [("source", "base64")].

Definition text_block : ImageCleaning.Block string :=
  ImageCleaning.mkBlock "text" [("text", "hello")].

Definition string_value (s : string) : string := s.

Definition placeholder_block : ImageCleaning.Block string :=
  ImageCleaning.mkBlock "text" [("text", "[Referenced image in conversation]")].

Definition with_image : list (ImageCleaning.ApiMessage string) :=
  [ImageCleaning.mkApiMessage (ImageCleaning.Blocks [image_block; text_block]) [("role", "user")];
   ImageCleaning.mkApiMessage (ImageCleaning.Text "plain") [("role", "assistant")]].

Definition without_image : list (ImageCleaning.ApiMessage string) :=
  [ImageCleaning.mkApiMessage (ImageCleaning.Blocks [placeholder_block; text_block])
     [("role", "user")];
   ImageCleaning.mkApiMessage (ImageCleaning.Text "plain") [("role", "assistant")]].

(** A date is given by its ISO string. *)
Definition toISOString (date : string) : string := date.

End Examples.

(** * The extension of a path *)

Section ExtnameFacts.
Import NodePath.

Lemma string_append_cons (c : ascii) (p s : string) :
  String.append (String c p) s = String c (String.append p s).
Proof. done. Qed.

Lemma string_append_nil (s : string) : String.append "" s = s.
Proof. done. Qed.

Lemma string_length_append (p s : string) :
  String.length (String.append p s) = (String.length p + String.length s)%nat.
Proof.
  induction p as [|c p IH]; [done|].
  rewrite string_append_cons. cbn [String.length]. by rewrite IH.
Qed.

Lemma string_get_append_r (p s : string) (k : nat) :
  String.get (String.length p + k) (String.append p s) = String.get k s.
Proof.
  induction p as [|c p IH]; [done|]. by rewrite string_append_cons.
Qed.

Lemma string_get_append_here (p : string) (c : ascii) (s : string) :
  String.get (String.length p) (String.append p (String c s)) = Some c.
Proof. by rewrite <-(Nat.add_0_r (String.length p)), string_get_append_r. Qed.

Lemma string_get_append_l (p s : string) (k : nat) :
  (k < String.length p)%nat → String.get k (String.append p s) = String.get k p.
Proof.
  revert k; induction p as [|c p IH]; intros k Hk; cbn [String.length] in Hk; [lia|].
  rewrite string_append_cons.
  destruct k as [|k]; [done|]. cbn [String.get]. apply IH. lia.
Qed.

Lemma string_get_lt (s : string) (k : nat) :
  (k < String.length s)%nat → ∃ c, String.get k s = Some c.
Proof.
  revert k; induction s as [|c s IH]; intros k Hk; cbn [String.length] in Hk; [lia|].
  destruct k as [|k]; [by exists c|]. apply IH. lia.
Qed.

Lemma has_char_get (c : ascii) (s : string) (k : nat) (c' : ascii) :
  has_char c s = false → String.get k s = Some c' → Ascii.eqb c' c = false.
Proof.
  revert k; induction s as [|a s IH]; intros k Hs Hk; [done|].
  cbn [has_char] in Hs. apply orb_false_iff in Hs as [Ha Hs].
  destruct k as [|k]; cbn [String.get] in Hk; [by simplify_eq | by eapply IH].
Qed.

Lemma substring_all (s : string) : String.substring 0 (String.length s) s = s.
Proof. induction s as [|c s IH]; [done|]. cbn [String.length String.substring]. by rewrite IH. Qed.

Lemma substring_append_r (p s : string) :
  String.substring (String.length p) (String.length s) (String.append p s) = s.
Proof.
  induction p as [|c p IH]; [apply substring_all|].
  by rewrite string_append_cons.
Qed.

Lemma substring_append_l (p s : string) :
  String.substring 0 (String.length p) (String.append p s) = p.
Proof.
  induction p as [|c p IH]; [by destruct s|].
  rewrite string_append_cons. cbn [String.length String.substring]. by rewrite IH.
Qed.

Lemma string_append_assoc (a b c : string) :
  String.append (String.append a b) c = String.append a (String.append b c).
Proof.
  induction a as [|x a IH]; [done|]. rewrite !string_append_cons. by rewrite IH.
Qed.

Lemma mark_end_fixed (e : Z) (st : ExtState) :
  end_ st ≠ (-1)%Z → mark_end e st = st.
Proof. intros He. unfold mark_end. by destruct (Z.eqb_spec (end_ st) (-1)). Qed.

Lemma ext_loop_S (path : string) (i : nat) (st : ExtState) :
  ext_loop path (S i) st =
  match String.get i path with
  | None => st
  | Some code =>
      if Ascii.eqb code "/"%char then
        if negb (matchedSlash st) then with_startPart (Z.of_nat i + 1) st
        else ext_loop path i st
      else
        let st1 := mark_end (Z.of_nat i + 1) st in
        let st2 :=
          if Ascii.eqb code "."%char then
            if (startDot st1 =? -1)%Z then
              {| startDot := Z.of_nat i; startPart := startPart st1; end_ := end_ st1;
                 matchedSlash := matchedSlash st1; preDotState := preDotState st1 |}
            else if negb (preDotState st1 =? 1)%Z then with_preDotState 1 st1
            else st1
          else if negb (startDot st1 =? -1)%Z then with_preDotState (-1) st1
          else st1 in
        ext_loop path i st2
  end.
Proof. done. Qed.

(** Over characters that are neither a slash nor a dot, before any dot was
    met, the loop only fixes [end]. *)
Lemma ext_loop_plain (path : string) (k n : nat) (st : ExtState) :
  (∀ j, (n ≤ j < n + k)%nat →
        ∃ c, String.get j path = Some c
             ∧ Ascii.eqb c "/" = false ∧ Ascii.eqb c "." = false) →
  startDot st = (-1)%Z →
  ext_loop path (n + k) st
  = ext_loop path n (match k with O => st | _ => mark_end (Z.of_nat (n + k)) st end).
Proof.
  revert st; induction k as [|k IH]; intros st Hch Hdot.
  { by rewrite Nat.add_0_r. }
  replace (n + S k)%nat with (S (n + k)) by lia.
  rewrite ext_loop_S.
  destruct (Hch (n + k)%nat ltac:(lia)) as (c & -> & -> & ->).
  cbn zeta.
  assert (startDot (mark_end (Z.of_nat (n + k) + 1) st) = (-1)%Z) as Hdot'.
  { unfold mark_end. by destruct (end_ st =? -1)%Z. }
  rewrite Hdot', Z.eqb_refl. cbn [negb].
  rewrite IH; [|intros j Hj; apply Hch; lia|done].
  f_equal. replace (Z.of_nat (S (n + k))) with (Z.of_nat (n + k) + 1)%Z by lia.
  destruct k as [|k]; [done|].
  unfold mark_end.
  destruct (end_ st =? -1)%Z eqn:He; cbn [end_]; [|by rewrite He].
  destruct (Z.eqb_spec (Z.of_nat (n + S k) + 1) (-1)); [lia|done].
Qed.

(** Once a dot and [end] are fixed, characters other than a slash change
    [preDotState] only; after a character that is not a dot it is [-1]. *)
Lemma ext_loop_stem (path : string) (k n : nat) (st : ExtState) :
  (∀ j, (n ≤ j < n + k)%nat →
        ∃ c, String.get j path = Some c ∧ Ascii.eqb c "/" = false) →
  (∃ c, String.get n path = Some c ∧ Ascii.eqb c "." = false) →
  (0 < k)%nat →
  startDot st ≠ (-1)%Z → end_ st ≠ (-1)%Z →
  ext_loop path (n + k) st = ext_loop path n (with_preDotState (-1) st).
Proof.
  revert st; induction k as [|k IH]; intros st Hch Hfirst Hk Hdot Hend; [lia|].
  replace (n + S k)%nat with (S (n + k)) by lia.
  rewrite ext_loop_S.
  destruct (Hch (n + k)%nat ltac:(lia)) as (c & Hc & Hslash).
  rewrite Hc, Hslash. cbn zeta.
  assert (mark_end (Z.of_nat (n + k) + 1) st = st) as ->.
  { unfold mark_end. by destruct (Z.eqb_spec (end_ st) (-1)). }
  destruct (Z.eqb_spec (startDot st) (-1)) as [|_]; [done|]. cbn [negb].
  destruct k as [|k].
  { rewrite Nat.add_0_r in *. destruct Hfirst as (c' & Hc' & Hnd).
    rewrite Hc in Hc'. simplify_eq. by rewrite Hnd. }
  assert (∀ p, ext_loop path (n + S k) (with_preDotState p st)
               = ext_loop path n (with_preDotState (-1) st)) as Hany.
  { intros p. rewrite IH; [done|intros j Hj; apply Hch; lia|done|lia|done|done]. }
  destruct (Ascii.eqb c "."); [destruct (negb (preDotState st =? 1)%Z)|].
  - apply Hany.
  - rewrite <-(Hany (preDotState st)). by destruct st.
  - apply Hany.
Qed.

(** At the start of the last part of the path the loop stops; only
    [startPart] may have changed. *)
Lemma ext_loop_stop (prefix rest : string) (st : ExtState) :
  at_directory prefix → matchedSlash st = false →
  ∃ p, ext_loop (String.append prefix rest) (String.length prefix) st = with_startPart p st.
Proof.
  intros [->|[dir ->]] Hm.
  - exists (startPart st). by destruct st.
  - exists (Z.of_nat (String.length dir) + 1)%Z.
    rewrite string_length_append. cbn [String.length].
    replace (String.length dir + 1)%nat with (S (String.length dir)) by lia.
    rewrite ext_loop_S, string_append_assoc, string_append_cons.
    rewrite string_get_append_here. cbn. by rewrite Hm.
Qed.

Lemma string_append_nil_r (s : string) : String.append s "" = s.
Proof. induction s as [|c s IH]; [done|]. by rewrite string_append_cons, IH. Qed.

Lemma plain_range (p s t : string) (j : nat) :
  plain s → (String.length p ≤ j < String.length p + String.length s)%nat →
  ∃ c, String.get j (String.append p (String.append s t)) = Some c
       ∧ Ascii.eqb c "/" = false ∧ Ascii.eqb c "." = false.
Proof.
  intros [Hslash Hdot] Hj.
  replace j with (String.length p + (j - String.length p))%nat by lia.
  rewrite string_get_append_r, string_get_append_l by lia.
  destruct (string_get_lt s (j - String.length p)) as [c Hc]; [lia|].
  exists c. eauto using has_char_get.
Qed.

Lemma no_slash_range (p s t : string) (j : nat) :
  has_char "/" s = false →
  (String.length p ≤ j < String.length p + String.length s)%nat →
  ∃ c, String.get j (String.append p (String.append s t)) = Some c
       ∧ Ascii.eqb c "/" = false.
Proof.
  intros Hslash Hj.
  replace j with (String.length p + (j - String.length p))%nat by lia.
  rewrite string_get_append_r, string_get_append_l by lia.
  destruct (string_get_lt s (j - String.length p)) as [c Hc]; [lia|].
  exists c. eauto using has_char_get.
Qed.

Lemma extname_result (path : string) :
  extname path = ext_result path (ext_loop path (String.length path) ext_init).
Proof. done. Qed.

(** A last part without a dot has no extension. *)
Lemma extname_plain_name (prefix name_ : string) :
  at_directory prefix → plain name_ → name_ ≠ "" →
  extname (String.append prefix name_) = "".
Proof.
  intros Hdir Hplain Hne.
  assert (String.append prefix name_ = String.append prefix (String.append name_ ""))
    as Hpath by (by rewrite string_append_nil_r).
  rewrite extname_result, string_length_append.
  rewrite ext_loop_plain.
  2: { intros j Hj. rewrite Hpath. by apply plain_range. }
  2: done.
  destruct (String.length name_) eqn:Hlen; [by destruct name_|].
  destruct (ext_loop_stop prefix name_ (mark_end (Z.of_nat (String.length prefix + S n)) ext_init))
    as [p ->]; done.
Qed.

(** A last part that is a dot followed by characters other than a dot has no
    extension. *)
Lemma extname_dotfile (prefix name_ : string) :
  at_directory prefix → plain name_ →
  extname (String.append prefix (String "." name_)) = "".
Proof.
  intros Hdir Hplain.
  rewrite extname_result, string_length_append.
  cbn [String.length].
  replace (String.length prefix + S (String.length name_))%nat
    with (S (String.length prefix) + String.length name_)%nat by lia.
  assert (String.append prefix (String "." name_)
          = String.append (String.append prefix ".") (String.append name_ "")) as Hpath.
  { by rewrite string_append_assoc, string_append_nil_r. }
  rewrite ext_loop_plain.
  2: { intros j Hj. rewrite Hpath. apply plain_range; [done|].
       rewrite string_length_append. cbn [String.length]. lia. }
  2: done.
  rewrite ext_loop_S, string_get_append_here.
  cbn [Ascii.eqb Bool.eqb]. cbn zeta.
  set (st := mark_end _ _).
  assert (startDot st = (-1)%Z ∧ matchedSlash st = false ∧ preDotState st = 0%Z)
    as (Hdot & Hm & Hpre).
  { subst st. destruct (String.length name_); [done|].
    by rewrite (mark_end_fixed _ (mark_end _ _)) by (cbn; lia). }
  rewrite Hdot, Z.eqb_refl.
  match goal with |- ext_result _ (ext_loop _ _ ?s) = _ =>
    destruct (ext_loop_stop prefix (String "." name_) s) as [p ->]; [done|done|]
  end.
  unfold ext_result. cbn [preDotState with_startPart]. rewrite Hpre.
  by rewrite !orb_true_r.
Qed.

(** A last part [stem.ext], where [stem] does not start with a dot and
    [ext] has no dot, has the extension [.ext]. *)
Lemma extname_stem_ext (prefix : string) (c : ascii) (stem ext_ : string) :
  at_directory prefix →
  Ascii.eqb c "/" = false → Ascii.eqb c "." = false →
  has_char "/" stem = false → plain ext_ →
  extname (String.append prefix (String.append (String c stem) (String "." ext_)))
  = String "." ext_.
Proof.
  intros Hdir Hc1 Hc2 Hstem Hplain.
  set (path := String.append prefix _).
  set (n := String.length (String.append prefix (String c stem))).
  assert (path = String.append (String.append (String.append prefix (String c stem)) ".")
                               (String.append ext_ "")) as Hpath1.
  { subst path. by rewrite string_append_nil_r, !string_append_assoc. }
  assert (path = String.append prefix (String.append (String c stem) (String "." ext_)))
    as Hpath2 by done.
  assert (String.length path = (S n + String.length ext_)%nat) as Hlen.
  { rewrite Hpath1. subst n. rewrite string_append_nil_r, !string_length_append.
    cbn [String.length]. lia. }
  rewrite extname_result, Hlen.
  rewrite ext_loop_plain.
  2: { intros j Hj. rewrite Hpath1. apply plain_range; [done|].
       rewrite string_length_append. cbn [String.length]. fold n. lia. }
  2: done.
  rewrite ext_loop_S.
  assert (String.get n path = Some "."%char) as ->.
  { subst path n. by rewrite <-string_append_assoc, string_get_append_here. }
  cbn [Ascii.eqb Bool.eqb]. cbn zeta.
  set (st := mark_end _ _).
  assert (startDot st = (-1)%Z ∧ matchedSlash st = false ∧ preDotState st = 0%Z
          ∧ end_ st = Z.of_nat (String.length path)) as (Hdot & Hm & Hpre & Hend).
  { subst st. rewrite Hlen. destruct (String.length ext_) eqn:He.
    - repeat split; try done; cbn; lia.
    - rewrite (mark_end_fixed _ (mark_end _ _)) by (cbn; lia). done. }
  rewrite Hdot, Z.eqb_refl.
  subst n. rewrite string_length_append in Hlen |- *.
  rewrite (ext_loop_stem path).
  2: { intros j Hj. rewrite Hpath2. apply no_slash_range; [|done].
       cbn [has_char]. by rewrite Hc1, Hstem. }
  2: { exists c. split; [|done]. subst path.
       by rewrite string_append_cons, string_get_append_here. }
  2: cbn [String.length]; lia.
  2: cbn [startDot]; lia.
  2: cbn [end_]; lia.
  match goal with |- ext_result _ (ext_loop _ _ ?s) = _ =>
    destruct (ext_loop_stop prefix (String.append (String c stem) (String "." ext_)) s)
      as [p Hp]; [done|done|]
  end.
  fold path in Hp. rewrite Hp.
  unfold ext_result.
  cbn [startDot end_ preDotState startPart with_startPart with_preDotState].
  rewrite Hend, Hlen.
  set (n := (String.length prefix + String.length (String c stem))%nat).
  destruct (Z.eqb_spec (Z.of_nat n) (-1)); [lia|].
  destruct (Z.eqb_spec (Z.of_nat (S n + String.length ext_)) (-1)); [lia|].
  cbn [orb andb Z.eqb].
  rewrite Nat2Z.id.
  replace (Z.to_nat _) with (String.length (String "." ext_))
    by (cbn [String.length]; lia).
  subst n. rewrite <-string_length_append.
  subst path. rewrite <-string_append_assoc.
  apply substring_append_r.
Qed.

End ExtnameFacts.

(** * Letters and their case *)

Section CaseFacts.

Lemma toLowerCase_cons (c : ascii) (s : string) :
  Js.toLowerCase (String c s) = String (Js.lower_ascii c) (Js.toLowerCase s).
Proof. done. Qed.

Lemma nat_of_lower_ascii (c : ascii) :
  nat_of_ascii (Js.lower_ascii c)
  = if (65 <=? nat_of_ascii c)%nat && (nat_of_ascii c <=? 90)%nat
    then (nat_of_ascii c + 32)%nat else nat_of_ascii c.
Proof.
  unfold Js.lower_ascii.
  destruct ((65 <=? nat_of_ascii c)%nat && (nat_of_ascii c <=? 90)%nat) eqn:Hup; [|done].
  apply andb_true_iff in Hup as [_ Hle%Nat.leb_le].
  apply nat_ascii_embedding. lia.
Qed.

Lemma ascii_eqb_nat (c c' : ascii) :
  Ascii.eqb c c' = (nat_of_ascii c =? nat_of_ascii c')%nat.
Proof.
  destruct (Ascii.eqb_spec c c') as [->|Hne].
  - by rewrite Nat.eqb_refl.
  - symmetry. apply Nat.eqb_neq. intros Heq. apply Hne.
    by rewrite <-(ascii_nat_embedding c), <-(ascii_nat_embedding c'), Heq.
Qed.

(** Two characters are the same letter exactly when they are lower-cased to
    the same character. *)
Lemma same_letter_lower (c c' : ascii) :
  same_letter c c' = Ascii.eqb (Js.lower_ascii c) (Js.lower_ascii c').
Proof.
  rewrite ascii_eqb_nat, !nat_of_lower_ascii. unfold same_letter. cbn zeta.
  generalize (nat_of_ascii c) (nat_of_ascii c'). intros n m.
  destruct (Nat.leb_spec 65 n), (Nat.leb_spec n 90), (Nat.leb_spec 65 m), (Nat.leb_spec m 90);
    cbn [andb orb];
    destruct (Nat.eqb_spec n m), (Nat.eqb_spec m (n + 32)), (Nat.eqb_spec n (m + 32));
    cbn [andb orb]; symmetry;
    first [reflexivity | apply Nat.eqb_eq; lia | apply Nat.eqb_neq; lia | exfalso; lia].
Qed.

Lemma same_ignoring_case_lower (a b : string) :
  same_ignoring_case a b = String.eqb (Js.toLowerCase a) (Js.toLowerCase b).
Proof.
  revert b; induction a as [|c a IH]; intros [|c' b]; [done..|].
  cbn [same_ignoring_case]. rewrite !toLowerCase_cons, same_letter_lower, IH.
  cbn [String.eqb]. by destruct (Ascii.eqb _ _).
Qed.

(** A slash and a dot are not letters. *)
Lemma same_letter_eqb (c c' x : ascii) :
  same_letter c c' = true → (nat_of_ascii x < 65)%nat →
  Ascii.eqb c' x = Ascii.eqb c x.
Proof.
  rewrite !ascii_eqb_nat. unfold same_letter. cbn zeta.
  generalize (nat_of_ascii c) (nat_of_ascii c') (nat_of_ascii x). intros n m k Hsame Hk.
  destruct (Nat.eqb_spec m k), (Nat.eqb_spec n k); [done| | |done]; exfalso;
    destruct (Nat.leb_spec 65 n), (Nat.leb_spec n 90), (Nat.leb_spec 65 m), (Nat.leb_spec m 90);
    cbn [andb orb] in Hsame;
    destruct (Nat.eqb_spec n m), (Nat.eqb_spec m (n + 32)), (Nat.eqb_spec n (m + 32));
    cbn [andb orb] in Hsame; first [discriminate Hsame | lia].
Qed.

Lemma same_ignoring_case_get (a b : string) (i : nat) :
  same_ignoring_case a b = true →
  match String.get i a, String.get i b with
  | Some c, Some c' => same_letter c c' = true
  | None, None => True
  | _, _ => False
  end.
Proof.
  revert b i; induction a as [|c a IH]; intros [|c' b] i Hsame;
    cbn [same_ignoring_case] in Hsame; [by destruct i|done|done|].
  apply andb_true_iff in Hsame as [Hc Hsame].
  destruct i as [|i]; [done|]. cbn [String.get]. by apply IH.
Qed.

Lemma same_ignoring_case_length (a b : string) :
  same_ignoring_case a b = true → String.length a = String.length b.
Proof.
  revert b; induction a as [|c a IH]; intros [|c' b] Hsame;
    cbn [same_ignoring_case] in Hsame; [done..|].
  apply andb_true_iff in Hsame as [_ Hsame]. cbn [String.length]. by rewrite (IH b).
Qed.

(** The loop of [extname] looks for slashes and dots only, so it ends in
    the same state on two paths that are equal up to case. *)
Lemma ext_loop_case (a b : string) (n : nat) (st : NodePath.ExtState) :
  same_ignoring_case a b = true → NodePath.ext_loop b n st = NodePath.ext_loop a n st.
Proof.
  intros Hsame. revert st; induction n as [|n IH]; intros st; [done|].
  rewrite !ext_loop_S.
  pose proof (same_ignoring_case_get a b n Hsame) as Hget.
  destruct (String.get n a) as [c|], (String.get n b) as [c'|]; try done.
  rewrite (same_letter_eqb c c' "/" Hget), (same_letter_eqb c c' "." Hget)
    by (vm_compute; lia).
  cbn zeta.
  destruct (Ascii.eqb c "/"); [by destruct (negb _)|].
  by rewrite IH.
Qed.

Lemma toLowerCase_substring (n m : nat) (s : string) :
  Js.toLowerCase (String.substring n m s) = String.substring n m (Js.toLowerCase s).
Proof.
  revert n m; induction s as [|c s IH]; intros n m.
  - by destruct n, m.
  - destruct n as [|n]; [|apply IH].
    destruct m as [|m]; [done|]. cbn [String.substring Js.toLowerCase]. by rewrite IH.
Qed.

(** The lower-cased extension of a path does not depend on the case of the
    letters of the path. *)
Lemma extname_case (a b : string) :
  same_ignoring_case a b = true →
  Js.toLowerCase (NodePath.extname b) = Js.toLowerCase (NodePath.extname a).
Proof.
  intros Hsame. rewrite !extname_result.
  rewrite <-(same_ignoring_case_length a b Hsame), (ext_loop_case a b _ _ Hsame).
  unfold ext_result. destruct (_ || _); [done|].
  rewrite !toLowerCase_substring. f_equal.
  symmetry. apply String.eqb_eq. by rewrite <-same_ignoring_case_lower.
Qed.

End CaseFacts.

(** ** The sort *)

Section ArraySortFacts.
Context {A : Type} (compareFn : A → A → Z).

Lemma insert_sorted_Permutation x l : insert_sorted compareFn x l ≡ₚ x :: l.
Proof.
  induction l as [|y l IH]; simpl; [done|].
  destruct (compareFn x y <? 0)%Z; [done|].
  by rewrite IH, Permutation_swap.
Qed.

Lemma foldl_insert_sorted_Permutation acc l :
  foldl (fun acc x => insert_sorted compareFn x acc) acc l ≡ₚ acc ++ l.
Proof.
  revert acc. induction l as [|x l IH]; intros acc; simpl.
  - by rewrite app_nil_r.
  - by rewrite IH, insert_sorted_Permutation, <-Permutation_middle.
Qed.

Lemma array_sort_Permutation l : array_sort compareFn l ≡ₚ l.
Proof. apply (foldl_insert_sorted_Permutation [] l). Qed.

Lemma insert_sorted_StronglySorted P x l :
  consistent compareFn P → P x → Forall P l →
  StronglySorted (ordered compareFn) l → StronglySorted (ordered compareFn) (insert_sorted compareFn x l).
Proof.
  intros [Htot Htrans] Hx HP Hl. induction Hl as [|y l Hl IH Hy]; simpl.
  { repeat constructor. }
  apply Forall_cons in HP as [Py Pl].
  destruct (compareFn x y <? 0)%Z eqn:Hxy.
  - apply Z.ltb_lt in Hxy. constructor; [by constructor|].
    constructor; [unfold ordered; lia|].
    rewrite Forall_forall in Hy, Pl. apply Forall_forall. intros z Hz.
    apply (Htrans x y z); auto; [lia|by apply Hy].
  - apply Z.ltb_ge in Hxy. constructor; [by apply IH|].
    apply Forall_forall. intros z. rewrite insert_sorted_Permutation.
    intros [->|Hz]%elem_of_cons; [by apply Htot|].
    rewrite Forall_forall in Hy. by apply Hy.
Qed.

Lemma array_sort_StronglySorted P l :
  consistent compareFn P → Forall P l → StronglySorted (ordered compareFn) (array_sort compareFn l).
Proof.
  intros Hc. unfold array_sort.
  assert (H : ∀ acc, Forall P acc → StronglySorted (ordered compareFn) acc → Forall P l →
              StronglySorted (ordered compareFn) (foldl (fun acc x => insert_sorted compareFn x acc) acc l)).
  { induction l as [|x l IH]; intros acc Pacc Hacc Pl; simpl; [done|].
    apply Forall_cons in Pl as [Px Pl]. apply IH; [|by eapply insert_sorted_StronglySorted|done].
    by rewrite insert_sorted_Permutation; constructor. }
  intros Pl. apply H; [done|constructor|done].
Qed.

End ArraySortFacts.

(** ** The loader *)

Section LoaderFacts.
Variable env : Env.

Lemma loadAndValidateMode_returns filePath :
  ∃ r, loadAndValidateMode env filePath = Returned r.
Proof.
  unfold loadAndValidateMode.
  destruct (readFile env filePath) as [raw|e]; simpl; [|eauto].
  destruct (yaml_parse env raw) as [parsed|e]; simpl; [|eauto].
  destruct (falsy parsed || negb (typeof_object parsed) || isArray parsed); simpl; [eauto|].
  destruct (modeConfigSchema_safeParse env parsed); simpl; eauto.
Qed.

Lemma loadAndValidateMode_loaded f :
  loadAndValidateMode env (fullPath f) = Returned (loaded env f).
Proof.
  unfold loaded. destruct (loadAndValidateMode_returns (fullPath f)) as [r ->].
  by destruct r.
Qed.

Lemma content_error_not_loaded f :
  content_error env (fullPath f) = true → loaded env f = None.
Proof.
  unfold content_error, loaded, loadAndValidateMode.
  destruct (readFile env (fullPath f)) as [raw|e]; simpl; [|done].
  destruct (yaml_parse env raw) as [parsed|e]; simpl; [|done].
  destruct (falsy parsed || negb (typeof_object parsed) || isArray parsed); simpl; [done|].
  by destruct (modeConfigSchema_safeParse env parsed).
Qed.

(** C4 (as amended): the per-file loader never throws.  A parse failure, a
    document that is not a single mapping and a schema failure yield null,
    and so does a failure to read the text of the file: the read is inside
    the [try], so an I/O error is caught with the rest. *)
Theorem loadAndValidateMode_never_throws (filePath : string) :
  (∃ r, loadAndValidateMode env filePath = Returned r)
  ∧ (∀ err, readFile env filePath = Err err →
       loadAndValidateMode env filePath = Returned None)
  ∧ (content_error env filePath = true →
       loadAndValidateMode env filePath = Returned None)
  ∧ (∀ raw parsed data,
       readFile env filePath = Ok raw → yaml_parse env raw = Ok parsed →
       falsy parsed || negb (typeof_object parsed) || isArray parsed = false →
       modeConfigSchema_safeParse env parsed = Success data →
       loadAndValidateMode env filePath = Returned (Some data)).
Proof.
  split; [apply loadAndValidateMode_returns|].
  unfold content_error, loadAndValidateMode.
  split; [by intros err ->|]. split.
  - destruct (readFile env filePath) as [raw|e]; simpl; [|done].
    destruct (yaml_parse env raw) as [parsed|e]; simpl; [|done].
    destruct (falsy parsed || negb (typeof_object parsed) || isArray parsed); simpl; [done|].
    by destruct (modeConfigSchema_safeParse env parsed).
  - intros raw parsed data -> Hp Hobj Hs. simpl. rewrite Hp. simpl.
    rewrite Hobj, Hs. done.
Qed.

(** *** The directory walk *)

Lemma walk_entries_step walk rootDir dir entry rest results :
  walk_entries env walk rootDir dir (entry :: rest) results =
    match action env dir entry with
    | Skip => walk_entries env walk rootDir dir rest results
    | Descend =>
        results' ← walk (path_join env dir (Dirent.name entry)) results;
        walk_entries env walk rootDir dir rest results'
    | Push =>
        walk_entries env walk rootDir dir rest
          (results ++ [file_entry env rootDir dir (Dirent.name entry)])
    end.
Proof.
  unfold action, hidden, extension_allowed, file_entry. simpl.
  unfold shouldIncludeModeFile.
  destruct (Dirent.isDirectory entry);
    destruct (Js.startsWith (Dirent.name entry) "." && negb (Dirent.name entry =? ".roo")%string);
    simpl; try done.
  - by destruct (bool_decide (Dirent.name entry ∈ EXCLUDED_DIRS)).
  - destruct (bool_decide (Dirent.name entry ∈ EXCLUDED_FILES)); simpl; [done|].
    destruct (bool_decide (_ ∈ ALLOWED_EXTENSIONS)); simpl; [|done].
    by destruct (Js.startsWith _ "_").
  - destruct (bool_decide (Dirent.name entry ∈ EXCLUDED_FILES)); simpl; [done|].
    destruct (bool_decide (_ ∈ ALLOWED_EXTENSIONS)); simpl; [|done].
    by destruct (Js.startsWith _ "_").
Qed.

Lemma walk_entries_app walk rootDir dir entries1 entries2 results :
  walk_entries env walk rootDir dir (entries1 ++ entries2) results =
    (results' ← walk_entries env walk rootDir dir entries1 results;
     walk_entries env walk rootDir dir entries2 results').
Proof.
  revert results. induction entries1 as [|entry rest IH]; intros results; [done|].
  rewrite <-app_comm_cons, !walk_entries_step.
  destruct (action env dir entry); [apply IH| |apply IH].
  destruct (walk _ results) as [r| |]; simpl; [apply IH|done..].
Qed.

Lemma walk_entries_appends walk rootDir dir entries :
  appends walk → appends (fun _ => walk_entries env walk rootDir dir entries).
Proof.
  intros Hw _. induction entries as [|entry rest IH]; intros results.
  { simpl. by rewrite app_nil_r. }
  rewrite !walk_entries_step. destruct (action env dir entry).
  - apply IH.
  - rewrite (Hw _ results).
    destruct (walk _ []) as [r| |]; simpl; [|done..].
    rewrite (IH (results ++ r)), (IH r).
    destruct (walk_entries env walk rootDir dir rest []) as [r'| |]; simpl; [|done..].
    by rewrite app_assoc.
  - rewrite (IH (results ++ _)), (IH ([] ++ _)).
    destruct (walk_entries env walk rootDir dir rest []) as [r'| |]; simpl; [|done..].
    by rewrite <-app_assoc.
Qed.

Lemma walk_appends fuel rootDir : appends (walk env fuel rootDir).
Proof.
  induction fuel as [|fuel IH]; intros dir results; [done|]. simpl.
  destruct (readdir env dir) as [entries|e]; simpl.
  - apply (walk_entries_appends _ _ _ _ IH dir).
  - by rewrite app_nil_r.
Qed.

(** The walk never throws. *)
Lemma walk_entries_not_thrown walk rootDir dir entries results err :
  (∀ p r e, walk p r ≠ Thrown e) →
  walk_entries env walk rootDir dir entries results ≠ Thrown err.
Proof.
  intros Hw. revert results. induction entries as [|entry rest IH]; intros results; [done|].
  rewrite walk_entries_step. destruct (action env dir entry); [apply IH| |apply IH].
  specialize (Hw (path_join env dir (Dirent.name entry)) results).
  destruct (walk _ results) as [r|e|]; simpl; [apply IH| |done].
  by specialize (Hw e).
Qed.

Lemma walk_not_thrown fuel rootDir dir results err :
  walk env fuel rootDir dir results ≠ Thrown err.
Proof.
  revert dir results err. induction fuel as [|fuel IH]; intros dir results err; [done|].
  simpl. destruct (readdir env dir) as [entries|e]; [|done].
  by apply walk_entries_not_thrown.
Qed.

Lemma walk_S fuel rootDir dir results :
  walk env (S fuel) rootDir dir results =
    match readdir env dir with
    | Err _ => Returned results
    | Ok entries => walk_entries env (walk env fuel rootDir) rootDir dir entries results
    end.
Proof. done. Qed.

Lemma walk_entries_nil walk rootDir dir results :
  walk_entries env walk rootDir dir [] results = Returned results.
Proof. done. Qed.

#[local] Arguments walk : simpl never.
#[local] Arguments walk_entries : simpl never.

Lemma walk_unreadable fuel rootDir dir results err :
  readdir env dir = Err err → walk env (S fuel) rootDir dir results = Returned results.
Proof. intros H. by rewrite walk_S, H. Qed.

(** What the loop does with a file that neither the excluded files nor the
    underscore remove. *)
Lemma walk_entries_file walk rootDir dir name_ rest results :
  name_ ∉ EXCLUDED_FILES →
  Js.startsWith (path_basename env (path_join env dir name_)) "_" = false →
  walk_entries env walk rootDir dir (Dirent.mk name_ false :: rest) results =
    walk_entries env walk rootDir dir rest
      (if bool_decide (Js.toLowerCase (NodePath.extname name_) ∈ ALLOWED_EXTENSIONS)
       then results ++ [file_entry env rootDir dir name_]
       else results).
Proof.
  intros Hex Hbase. rewrite walk_entries_step. unfold action, extension_allowed. simpl.
  rewrite (bool_decide_eq_false_2 _ Hex), Hbase. simpl.
  by destruct (bool_decide (_ ∈ ALLOWED_EXTENSIONS)).
Qed.

(** An extension is allowed when it is yaml or yml in any mix of cases. *)
Lemma allowed_extension_ignoring_case ext_ :
  bool_decide (Js.toLowerCase (String "." ext_) ∈ ALLOWED_EXTENSIONS)
  = same_ignoring_case ext_ "yaml" || same_ignoring_case ext_ "yml".
Proof.
  rewrite !same_ignoring_case_lower, toLowerCase_cons.
  change (Js.lower_ascii ".") with "."%char.
  change (Js.toLowerCase "yaml") with "yaml".
  change (Js.toLowerCase "yml") with "yml".
  unfold ALLOWED_EXTENSIONS.
  destruct (String.eqb_spec (Js.toLowerCase ext_) "yaml") as [->|Hyaml].
  { apply bool_decide_eq_true_2. apply elem_of_union_l. by apply elem_of_singleton. }
  destruct (String.eqb_spec (Js.toLowerCase ext_) "yml") as [->|Hyml].
  { apply bool_decide_eq_true_2. apply elem_of_union_r. by apply elem_of_singleton. }
  apply bool_decide_eq_false_2.
  intros [Hin|Hin]%elem_of_union; apply elem_of_singleton in Hin; congruence.
Qed.

(** C9: the extension filter does not look at the case of the letters.  Of
    two file names that are equal up to the case of their letters, and that
    no other filter removes, the loop pushes both or neither; and a file
    named stem.ext that no other filter removes is pushed exactly when ext
    is yaml or yml in any mix of cases, so MODE.YAML and mode.Yml are
    candidates. *)
Theorem extension_filter_ignores_case walk rootDir dir rest results :
  (∀ name_ name',
     same_ignoring_case name_ name' = true →
     name_ ∉ EXCLUDED_FILES → name' ∉ EXCLUDED_FILES →
     Js.startsWith (path_basename env (path_join env dir name_)) "_" = false →
     Js.startsWith (path_basename env (path_join env dir name')) "_" = false →
     ∃ pushed : bool,
       walk_entries env walk rootDir dir (Dirent.mk name_ false :: rest) results =
         walk_entries env walk rootDir dir rest
           (if pushed then results ++ [file_entry env rootDir dir name_] else results)
       ∧ walk_entries env walk rootDir dir (Dirent.mk name' false :: rest) results =
           walk_entries env walk rootDir dir rest
             (if pushed then results ++ [file_entry env rootDir dir name'] else results))
  ∧ (∀ c stem ext_,
       Ascii.eqb c "/" = false → Ascii.eqb c "." = false →
       has_char "/" stem = false → plain ext_ →
       String.append (String c stem) (String "." ext_) ∉ EXCLUDED_FILES →
       Js.startsWith
         (path_basename env
            (path_join env dir (String.append (String c stem) (String "." ext_)))) "_"
       = false →
       walk_entries env walk rootDir dir
         (Dirent.mk (String.append (String c stem) (String "." ext_)) false :: rest) results =
         walk_entries env walk rootDir dir rest
           (if same_ignoring_case ext_ "yaml" || same_ignoring_case ext_ "yml"
            then results
                 ++ [file_entry env rootDir dir
                       (String.append (String c stem) (String "." ext_))]
            else results)).
Proof.
  split.
  - intros name_ name' Hsame Hex Hex' Hbase Hbase'.
    exists (bool_decide (Js.toLowerCase (NodePath.extname name_) ∈ ALLOWED_EXTENSIONS)).
    split; [by apply walk_entries_file|].
    rewrite <-(extname_case name_ name' Hsame). by apply walk_entries_file.
  - intros c stem ext_ Hc1 Hc2 Hstem Hplain Hex Hbase.
    rewrite (walk_entries_file _ _ _ _ _ _ Hex Hbase).
    pose proof (extname_stem_ext "" c stem ext_ (or_introl eq_refl) Hc1 Hc2 Hstem Hplain)
      as Hext.
    rewrite string_append_nil in Hext.
    by rewrite Hext, allowed_extension_ignoring_case.
Qed.

(** *** The loop over the scanned files *)

Lemma load_files_step f rest modes slugToFile :
  load_files env (f :: rest) modes slugToFile =
    match loaded env f with
    | None => load_files env rest modes slugToFile
    | Some m =>
        match slugToFile !! slug m with
        | Some conflictPath => Thrown (duplicate_message (slug m) conflictPath (fullPath f))
        | None => load_files env rest (modes ++ [m]) (<[slug m := fullPath f]> slugToFile)
        end
    end.
Proof. simpl. rewrite loadAndValidateMode_loaded. by destruct (loaded env f). Qed.

Lemma tracks_empty : tracks env [] ∅.
Proof.
  split; [|split].
  - intros s p H. by rewrite lookup_empty in H.
  - intros i f m H. by rewrite lookup_nil in H.
  - intros i j s (_ & f & g & m & n & H & _). by rewrite lookup_nil in H.
Qed.

Lemma tracks_skip seen f slugToFile :
  tracks env seen slugToFile → loaded env f = None → tracks env (seen ++ [f]) slugToFile.
Proof.
  intros (H1 & H2 & H3) Hf. split; [|split].
  - intros s p Hs. destruct (H1 s p Hs) as (i & f0 & m & Hi & ?).
    exists i, f0, m. split; [by apply lookup_app_l_Some|done].
  - intros i f0 m Hi Hm. apply lookup_snoc_Some in Hi as [[_ Hi]|[_ <-]]; [eauto|congruence].
  - intros i j s (Hij & f0 & g & m & n & Hi & Hj & Hm & Hn & Hs).
    apply lookup_snoc_Some in Hj as [[Hlt Hj]|[_ <-]]; [|congruence].
    apply lookup_snoc_Some in Hi as [[_ Hi]|[-> _]]; [|lia].
    apply (H3 i j s). split; [done|]. by exists f0, g, m, n.
Qed.

Lemma tracks_insert seen f m slugToFile :
  tracks env seen slugToFile → loaded env f = Some m → slugToFile !! slug m = None →
  tracks env (seen ++ [f]) (<[slug m := fullPath f]> slugToFile).
Proof.
  intros (H1 & H2 & H3) Hf Hnone. split; [|split].
  - intros s p Hs. apply lookup_insert_Some in Hs as [[<- <-]|[_ Hs]].
    + exists (List.length seen), f, m. split; [|done].
      apply lookup_snoc_Some. by right.
    + destruct (H1 s p Hs) as (i & f0 & m0 & Hi & ?).
      exists i, f0, m0. split; [by apply lookup_app_l_Some|done].
  - intros i f0 m0 Hi Hm. apply lookup_insert_is_Some'.
    apply lookup_snoc_Some in Hi as [[_ Hi]|[_ <-]]; [right; eauto|].
    left. congruence.
  - intros i j s (Hij & f0 & g & m0 & n & Hi & Hj & Hm & Hn & Hs & Hs').
    apply lookup_snoc_Some in Hi as [[Hlt Hi]|[-> _]].
    + apply lookup_snoc_Some in Hj as [[_ Hj]|[_ <-]].
      * apply (H3 i j s). split; [done|]. by exists f0, g, m0, n.
      * destruct (H2 i f0 m0 Hi Hm) as [p Hp]. congruence.
    + apply lookup_lt_Some in Hj. rewrite length_app in Hj. simpl in Hj. lia.
Qed.

Lemma load_files_outcome_from rest seen modes slugToFile :
  tracks env seen slugToFile →
  match load_files env rest modes slugToFile with
  | Returned ms =>
      ms = modes ++ loaded_modes env rest ∧ ∀ i j s, ¬ conflict env (seen ++ rest) i j s
  | Thrown msg => duplicate_error env (seen ++ rest) msg
  | OutOfFuel => False
  end.
Proof.
  revert seen modes slugToFile.
  induction rest as [|f rest IH]; intros seen modes slugToFile Htr.
  { simpl. rewrite !app_nil_r. split; [done|]. apply Htr. }
  rewrite load_files_step. unfold loaded_modes. simpl.
  replace (seen ++ f :: rest) with ((seen ++ [f]) ++ rest) by by rewrite <-app_assoc.
  destruct (loaded env f) as [m|] eqn:Hf.
  - destruct (slugToFile !! slug m) as [p|] eqn:Hp.
    + destruct Htr as (H1 & _). destruct (H1 _ _ Hp) as (i & f0 & m0 & Hi & <- & Hm0 & Hs).
      assert (Hi' : ((seen ++ [f]) ++ rest) !! i = Some f0)
        by by do 2 apply lookup_app_l_Some.
      assert (Hj' : ((seen ++ [f]) ++ rest) !! List.length seen = Some f).
      { apply lookup_app_l_Some, lookup_snoc_Some. by right. }
      exists i, (List.length seen), f0, f, (slug m). split; [|done].
      split; [by apply lookup_lt_Some in Hi|]. by exists f0, f, m0, m.
    + specialize (IH (seen ++ [f]) (modes ++ [m]) _ (tracks_insert _ _ _ _ Htr Hf Hp)).
      destruct (load_files env rest _ _); [|done..].
      destruct IH as [-> ?]. by rewrite <-app_assoc.
  - apply (IH (seen ++ [f]) modes _ (tracks_skip _ _ _ Htr Hf)).
Qed.

(** The loop either returns the modes of the files that load, when no two
    of them have the same slug, or throws the duplicate-slug error. *)
Lemma load_files_outcome files :
  match load_files env files [] ∅ with
  | Returned ms => ms = loaded_modes env files ∧ ∀ i j s, ¬ conflict env files i j s
  | Thrown msg => duplicate_error env files msg
  | OutOfFuel => False
  end.
Proof. apply (load_files_outcome_from files [] [] ∅ tracks_empty). Qed.

(** With enough fuel for the depth of the tree, the walk returns. *)
Lemma walk_entries_returns walk rootDir dir entries results :
  (∀ entry r, entry ∈ entries → action env dir entry = Descend →
     ∃ r', walk (path_join env dir (Dirent.name entry)) r = Returned r') →
  ∃ results', walk_entries env walk rootDir dir entries results = Returned results'.
Proof.
  revert results. induction entries as [|entry rest IH]; intros results Hw.
  { by exists results. }
  assert (Hrest : ∀ entry r, entry ∈ rest → action env dir entry = Descend →
            ∃ r', walk (path_join env dir (Dirent.name entry)) r = Returned r').
  { intros e r He. apply Hw. by right. }
  rewrite walk_entries_step. destruct (action env dir entry) eqn:Ha; [by apply IH| |by apply IH].
  destruct (Hw entry results) as [r' ->]; [by left|done|]. by apply IH.
Qed.

Lemma walk_returns fuel rootDir dir results :
  shallow env fuel dir → ∃ results', walk env fuel rootDir dir results = Returned results'.
Proof.
  intros Hs. revert results. induction Hs as [fuel dir err Herr|fuel dir entries Hdir _ IH];
    intros results; rewrite walk_S.
  - rewrite Herr. by exists results.
  - rewrite Hdir. apply walk_entries_returns. intros entry r Hin Ha. by apply IH.
Qed.

Lemma loadModesFromDirectory_completes fuel rootDir :
  shallow env fuel rootDir → loadModesFromDirectory env fuel rootDir ≠ OutOfFuel.
Proof.
  intros Hs. unfold loadModesFromDirectory, scanForModeFiles.
  destruct (walk_returns fuel rootDir rootDir [] Hs) as [files ->]. simpl.
  pose proof (load_files_outcome files) as H.
  by destruct (load_files env files [] ∅).
Qed.

Lemma duplicate_error_conflict files msg :
  duplicate_error env files msg → ∃ i j s, conflict env files i j s.
Proof. intros (i & j & _ & _ & s & H & _). eauto. Qed.

Lemma load_files_skip before bad after modes slugToFile :
  loaded env bad = None →
  load_files env (before ++ bad :: after) modes slugToFile =
    load_files env (before ++ after) modes slugToFile.
Proof.
  intros Hbad. revert modes slugToFile.
  induction before as [|f before IH]; intros modes slugToFile.
  { simpl app. by rewrite load_files_step, Hbad. }
  rewrite <-!app_comm_cons, !load_files_step.
  destruct (loaded env f) as [m|]; [|apply IH].
  destruct (slugToFile !! slug m); [done|apply IH].
Qed.

Lemma loadModesFromDirectory_scanned fuel rootDir files :
  scanForModeFiles env fuel rootDir = Returned files →
  loadModesFromDirectory env fuel rootDir =
    (modes ← load_files env files [] ∅;
     Returned (array_sort (compare_slug env) modes)).
Proof. intros H. unfold loadModesFromDirectory. by rewrite H. Qed.

Lemma loadModesFromDirectory_no_conflict fuel rootDir files :
  scanForModeFiles env fuel rootDir = Returned files →
  (∀ i j s, ¬ conflict env files i j s) →
  loadModesFromDirectory env fuel rootDir =
    Returned (array_sort (compare_slug env) (loaded_modes env files)).
Proof.
  intros Hscan Hno. rewrite (loadModesFromDirectory_scanned _ _ _ Hscan).
  pose proof (load_files_outcome files) as H.
  destruct (load_files env files [] ∅) as [ms|msg|]; [|exfalso|done].
  - destruct H as [-> _]. done.
  - destruct (duplicate_error_conflict _ _ H) as (i & j & s & Hc). by apply (Hno i j s).
Qed.

(** The message of the duplicate-slug error holds the slug and the two
    paths. *)
Lemma duplicate_message_names slug_ conflictPath fullPath_ :
  names (duplicate_message slug_ conflictPath fullPath_) slug_
  ∧ names (duplicate_message slug_ conflictPath fullPath_) conflictPath
  ∧ names (duplicate_message slug_ conflictPath fullPath_) fullPath_.
Proof.
  unfold duplicate_message. split; [|split].
  - exists (String.append "Duplicate mode slug detected: " quote),
      (String.append quote (String.append ". Files: "
         (String.append conflictPath (String.append " and " fullPath_)))).
    by rewrite !string_append_assoc.
  - exists (String.append "Duplicate mode slug detected: "
              (String.append quote (String.append slug_ (String.append quote ". Files: ")))),
      (String.append " and " fullPath_).
    by rewrite !string_append_assoc.
  - exists (String.append "Duplicate mode slug detected: "
              (String.append quote (String.append slug_ (String.append quote
                (String.append ". Files: " (String.append conflictPath " and ")))))),
      "".
    by rewrite string_append_nil_r, !string_append_assoc.
Qed.

(** C1: when two of the scanned files load to modes with the same slug, the
    loader throws the duplicate-slug error, and so returns no list.  The
    message is the text of the template, in which the slug and the full
    paths of two files in conflict stand; when the two files at hand are the
    only ones in conflict, the paths are theirs. *)
Theorem duplicate_slug_is_fatal fuel rootDir files i j s :
  scanForModeFiles env fuel rootDir = Returned files →
  conflict env files i j s →
  (∃ i' j' f g s' msg,
     loadModesFromDirectory env fuel rootDir = Thrown msg
     ∧ msg = String.append "Duplicate mode slug detected: "
               (String.append quote (String.append s' (String.append quote
                  (String.append ". Files: " (String.append (fullPath f)
                     (String.append " and " (fullPath g)))))))
     ∧ names msg s' ∧ names msg (fullPath f) ∧ names msg (fullPath g)
     ∧ conflict env files i' j' s' ∧ files !! i' = Some f ∧ files !! j' = Some g)
  ∧ ((∀ i' j' s', conflict env files i' j' s' → i' = i ∧ j' = j) →
     ∃ f g msg, files !! i = Some f ∧ files !! j = Some g
       ∧ loadModesFromDirectory env fuel rootDir = Thrown msg
       ∧ msg = String.append "Duplicate mode slug detected: "
                 (String.append quote (String.append s (String.append quote
                    (String.append ". Files: " (String.append (fullPath f)
                       (String.append " and " (fullPath g)))))))
       ∧ names msg (fullPath f) ∧ names msg (fullPath g)).
Proof.
  intros Hscan Hc.
  assert (H : ∃ i' j' f g s',
     loadModesFromDirectory env fuel rootDir =
       Thrown (duplicate_message s' (fullPath f) (fullPath g))
     ∧ conflict env files i' j' s' ∧ files !! i' = Some f ∧ files !! j' = Some g).
  { rewrite (loadModesFromDirectory_scanned _ _ _ Hscan).
    pose proof (load_files_outcome files) as H.
    destruct (load_files env files [] ∅) as [ms|msg|]; [|simpl|done].
    - destruct H as [_ H]. by destruct (H i j s).
    - destruct H as (i' & j' & f & g & s' & ? & ? & ? & ->). by exists i', j', f, g, s'. }
  destruct H as (i' & j' & f & g & s' & Hthrow & Hc' & Hi' & Hj').
  destruct (duplicate_message_names s' (fullPath f) (fullPath g)) as (Hs & Hf & Hg).
  split.
  { exists i', j', f, g, s', (duplicate_message s' (fullPath f) (fullPath g)).
    split; [exact Hthrow|]. split; [reflexivity|]. split; [exact Hs|].
    split; [exact Hf|]. split; [exact Hg|]. split; [exact Hc'|]. split; [exact Hi'|exact Hj']. }
  intros Honly.
  destruct (Honly _ _ _ Hc') as [-> ->].
  assert (s' = s) as ->.
  { destruct Hc as (_ & f1 & g1 & m & n & Hi & _ & Hm & _ & <- & _).
    destruct Hc' as (_ & f2 & g2 & m' & n' & Hi2 & _ & Hm' & _ & <- & _).
    congruence. }
  exists f, g, (duplicate_message s (fullPath f) (fullPath g)).
  split; [exact Hi'|]. split; [exact Hj'|]. split; [exact Hthrow|].
  split; [reflexivity|]. split; [exact Hf|exact Hg].
Qed.

(** C10: only the files that load count for the detection of duplicates.
    The loader throws exactly when two files that load have the same slug,
    and what it throws is the duplicate-slug error; of two files of which
    one has a content error, the mode of the other is returned. *)
Theorem duplicates_among_loaded_files_only fuel rootDir files :
  scanForModeFiles env fuel rootDir = Returned files →
  ((∃ msg, loadModesFromDirectory env fuel rootDir = Thrown msg)
     ↔ ∃ i j s, conflict env files i j s)
  ∧ (∀ msg, loadModesFromDirectory env fuel rootDir = Thrown msg →
       duplicate_error env files msg)
  ∧ (∀ f g m, files = [f; g] ∨ files = [g; f] →
       loaded env f = Some m → content_error env (fullPath g) = true →
       loadModesFromDirectory env fuel rootDir = Returned [m]).
Proof.
  intros Hscan. rewrite (loadModesFromDirectory_scanned _ _ _ Hscan).
  pose proof (load_files_outcome files) as H.
  split; [|split].
  - destruct (load_files env files [] ∅) as [ms|msg|]; [|simpl|done].
    + destruct H as [_ H]. split; [by intros [msg ?]|].
      intros (i & j & s & Hc). by destruct (H i j s).
    + split; [intros _; by eapply duplicate_error_conflict|eauto].
  - intros msg. destruct (load_files env files [] ∅) as [ms|msg'|]; [done| |done].
    simpl. by intros [= <-].
  - intros f g m Hfiles Hf Hg. apply content_error_not_loaded in Hg.
    assert (Hmodes : loaded_modes env files = [m]).
    { unfold loaded_modes. destruct Hfiles as [-> | ->]; simpl; by rewrite Hf, Hg. }
    destruct (load_files env files [] ∅) as [ms|msg|]; [|exfalso|done].
    + destruct H as [-> _]. by rewrite Hmodes.
    + destruct H as (i & j & f0 & g0 & s & (Hij & f1 & g1 & m1 & n1 & Hi & Hj & Hm1 & Hn1 & _) & _).
      destruct Hfiles as [-> | ->];
        destruct i as [|[|i]]; destruct j as [|[|j]];
        simpl in Hi, Hj; simplify_eq; lia.
Qed.

(** C3: a scanned file with a content error (its text does not parse, or
    parses to an array or a scalar, or fails the schema) is skipped, and
    only it: the loader does what it does on the other files.  When no two
    of those have the same slug, it returns the modes of all that load. *)
Theorem malformed_file_is_skipped fuel rootDir before bad after :
  scanForModeFiles env fuel rootDir = Returned (before ++ bad :: after) →
  content_error env (fullPath bad) = true →
  loadModesFromDirectory env fuel rootDir =
    (modes ← load_files env (before ++ after) [] ∅;
     Returned (array_sort (compare_slug env) modes))
  ∧ ((∀ i j s, ¬ conflict env (before ++ after) i j s) →
     ∃ modes, loadModesFromDirectory env fuel rootDir = Returned modes
       ∧ modes ≡ₚ loaded_modes env (before ++ after)
       ∧ ∀ f m, f ∈ before ++ after → loaded env f = Some m → m ∈ modes).
Proof.
  intros Hscan Hbad. apply content_error_not_loaded in Hbad.
  rewrite (loadModesFromDirectory_scanned _ _ _ Hscan), (load_files_skip _ _ _ _ _ Hbad).
  split; [done|]. intros Hno.
  pose proof (load_files_outcome (before ++ after)) as H.
  destruct (load_files env (before ++ after) [] ∅) as [ms|msg|]; [|exfalso|done].
  - destruct H as [-> _]. eexists. split; [done|].
    split; [apply array_sort_Permutation|].
    intros f m Hin Hm. rewrite array_sort_Permutation.
    apply list_elem_of_omap. eauto.
  - destruct (duplicate_error_conflict _ _ H) as (i & j & s & Hc). by apply (Hno i j s).
Qed.

(** *** What the scan finds *)

Lemma action_Descend dir entry :
  action env dir entry = Descend →
  Dirent.isDirectory entry = true ∧ walkable (Dirent.name entry).
Proof.
  unfold action, hidden, walkable.
  destruct (Dirent.isDirectory entry); [|by destruct (_ || _)].
  destruct (Js.startsWith _ ".") eqn:Hdot; simpl;
    [destruct (String.eqb_spec (Dirent.name entry) ".roo") as [Heq|Hne]; simpl; [|done]|];
    destruct (bool_decide (_ ∈ EXCLUDED_DIRS)) eqn:Hex; try done;
    apply bool_decide_eq_false in Hex; intros _; repeat split; done.
Qed.

Lemma action_Push dir entry :
  action env dir entry = Push →
  Dirent.isDirectory entry = false
  ∧ (Dirent.name entry ∉ EXCLUDED_FILES)
  ∧ Js.toLowerCase (NodePath.extname (Dirent.name entry)) ∈ ALLOWED_EXTENSIONS
  ∧ Js.startsWith (path_basename env (path_join env dir (Dirent.name entry))) "_" = false.
Proof.
  unfold action, extension_allowed.
  destruct (Dirent.isDirectory entry); [by destruct (_ || _)|].
  destruct (bool_decide (_ ∈ EXCLUDED_FILES)) eqn:Hex; [done|].
  destruct (bool_decide (_ ∈ ALLOWED_EXTENSIONS)) eqn:Hext; [|done].
  destruct (Js.startsWith _ "_"); [done|]. intros _.
  apply bool_decide_eq_false in Hex. apply bool_decide_eq_true in Hext. done.
Qed.

Lemma walk_entries_candidates walk rootDir chain dir listing :
  reaches env rootDir chain dir → Forall walkable chain →
  readdir env dir = Ok listing →
  (∀ entry results results',
     entry ∈ listing → Dirent.isDirectory entry = true → walkable (Dirent.name entry) →
     Forall (candidate env rootDir) results →
     walk (path_join env dir (Dirent.name entry)) results = Returned results' →
     Forall (candidate env rootDir) results') →
  ∀ entries results results',
    entries ⊆ listing →
    Forall (candidate env rootDir) results →
    walk_entries env walk rootDir dir entries results = Returned results' →
    Forall (candidate env rootDir) results'.
Proof.
  intros Hreach Hchain Hdir Hwalk.
  induction entries as [|entry rest IH]; intros results results' Hsub Hres.
  { rewrite walk_entries_nil. by intros [= <-]. }
  assert (Hin : entry ∈ listing) by (apply Hsub; left).
  assert (Hrest : rest ⊆ listing) by (intros e He; apply Hsub; by right).
  rewrite walk_entries_step. destruct (action env dir entry) eqn:Ha.
  - by apply IH.
  - destruct (action_Descend _ _ Ha) as [Hd Hw].
    destruct (walk _ results) as [r| |] eqn:Hr; simpl; [|done..].
    apply IH; [done|]. by eapply Hwalk.
  - destruct (action_Push _ _ Ha) as (Hf & Hex & Hext & Hbase).
    apply IH; [done|]. apply Forall_app. split; [done|].
    apply Forall_singleton. exists chain, (Dirent.name entry).
    repeat split; try done.
    exists dir, listing. repeat split; try done.
    destruct entry as [n d]. simpl in *. by subst d.
Qed.

Lemma walk_candidates fuel rootDir chain dir results results' :
  reaches env rootDir chain dir → Forall walkable chain →
  Forall (candidate env rootDir) results →
  walk env fuel rootDir dir results = Returned results' →
  Forall (candidate env rootDir) results'.
Proof.
  revert chain dir results results'.
  induction fuel as [|fuel IH]; intros chain dir results results' Hreach Hchain Hres; [done|].
  rewrite walk_S. destruct (readdir env dir) as [listing|e] eqn:Hdir; [|by intros [= <-]].
  apply (walk_entries_candidates _ _ _ _ _ Hreach Hchain Hdir); [|done..].
  intros entry r r' Hin Hd Hw Hr. apply (IH (chain ++ [Dirent.name entry])); [|apply Forall_app; split; [done|by apply Forall_singleton]|done].
  by eapply reaches_sub.
Qed.

Lemma scanForModeFiles_candidates fuel rootDir files :
  scanForModeFiles env fuel rootDir = Returned files → Forall (candidate env rootDir) files.
Proof. apply (walk_candidates _ _ [] rootDir []); by constructor. Qed.

(** C8: an entry whose name starts with a dot is, when it is a directory,
    passed over without being walked, whatever the walker would do there;
    the one exception is the directory named .roo, which is walked.  So no
    scanned file lies under a hidden directory other than .roo. *)
Theorem hidden_directory_not_walked :
  (∀ rootDir dir entry rest results,
     Dirent.isDirectory entry = true →
     Js.startsWith (Dirent.name entry) "." = true →
     (Dirent.name entry ≠ ".roo" →
        ∀ walk, walk_entries env walk rootDir dir (entry :: rest) results =
                  walk_entries env walk rootDir dir rest results)
     ∧ (Dirent.name entry = ".roo" →
        ∀ walk, walk_entries env walk rootDir dir (entry :: rest) results =
                  (results' ← walk (path_join env dir ".roo") results;
                   walk_entries env walk rootDir dir rest results')))
  ∧ (∀ fuel rootDir files f,
       scanForModeFiles env fuel rootDir = Returned files → f ∈ files →
       ∃ chain name_,
         located env rootDir chain name_ f
         ∧ Forall (fun d => Js.startsWith d "." = true → d = ".roo") chain).
Proof.
  split.
  - intros rootDir dir entry rest results Hdir Hdot.
    split; intros Hname walk; rewrite walk_entries_step;
      unfold action, hidden; rewrite Hdir, Hdot; simpl.
    + apply String.eqb_neq in Hname. by rewrite Hname.
    + by rewrite Hname.
  - intros fuel rootDir files f Hscan Hf.
    pose proof (scanForModeFiles_candidates _ _ _ Hscan) as Hc.
    rewrite Forall_forall in Hc.
    destruct (Hc f Hf) as (chain & name_ & Hloc & Hchain & _).
    exists chain, name_. split; [done|].
    eapply Forall_impl; [exact Hchain|]. by intros d [_ ?].
Qed.

(** C5: every scanned file lies under a chain of directories none of which
    is excluded (or hidden, .roo apart), is not an excluded file, has .yaml
    or .yml for lower-cased extension and a base name that does not start
    with an underscore; every mode the loader returns is loaded from a
    scanned file; and the scan passes over an excluded directory without
    walking it, and over a file with another extension or with such a base
    name, whatever they hold. *)
Theorem modes_come_from_candidate_files fuel rootDir files :
  scanForModeFiles env fuel rootDir = Returned files →
  (∀ f, f ∈ files →
     ∃ chain name_,
       located env rootDir chain name_ f
       ∧ Forall (fun d => d ∉ EXCLUDED_DIRS) chain
       ∧ Forall walkable chain
       ∧ (name_ ∉ EXCLUDED_FILES)
       ∧ Js.toLowerCase (NodePath.extname name_) ∈ ALLOWED_EXTENSIONS
       ∧ Js.startsWith (path_basename env (fullPath f)) "_" = false)
  ∧ (∀ modes m,
       loadModesFromDirectory env fuel rootDir = Returned modes → m ∈ modes →
       ∃ f, f ∈ files ∧ loaded env f = Some m)
  ∧ (∀ walk dir entry rest results,
       (Dirent.isDirectory entry = true ∧ Dirent.name entry ∈ EXCLUDED_DIRS)
       ∨ (Dirent.isDirectory entry = false
          ∧ (Js.toLowerCase (NodePath.extname (Dirent.name entry)) ∉ ALLOWED_EXTENSIONS
             ∨ Js.startsWith (path_basename env (path_join env dir (Dirent.name entry))) "_"
               = true)) →
       walk_entries env walk rootDir dir (entry :: rest) results =
         walk_entries env walk rootDir dir rest results).
Proof.
  intros Hscan. split; [|split].
  - intros f Hf. pose proof (scanForModeFiles_candidates _ _ _ Hscan) as Hc.
    rewrite Forall_forall in Hc.
    destruct (Hc f Hf) as (chain & name_ & Hloc & Hchain & Hex & Hext & Hbase).
    exists chain, name_. repeat split; try done.
    eapply Forall_impl; [exact Hchain|]. by intros d [? _].
  - intros modes m. rewrite (loadModesFromDirectory_scanned _ _ _ Hscan).
    pose proof (load_files_outcome files) as H.
    destruct (load_files env files [] ∅) as [ms| |]; [|done..].
    destruct H as [-> _]. simpl. intros [= <-] Hm.
    rewrite array_sort_Permutation in Hm.
    apply list_elem_of_omap in Hm as (f & Hf & Hfm). by exists f.
  - intros walk dir entry rest results Hskip. rewrite walk_entries_step.
    unfold action, extension_allowed.
    destruct Hskip as [[-> Hex]|[-> Hskip]].
    + rewrite (bool_decide_eq_true_2 _ Hex). by rewrite orb_true_r.
    + destruct Hskip as [Hext| ->].
      * rewrite (bool_decide_eq_false_2 _ Hext). simpl. by rewrite orb_true_r.
      * by rewrite orb_true_r.
Qed.

(** *** The order of the listings *)

Lemma walk_entries_contribution walk rootDir dir entry rest results :
  appends walk →
  walk_entries env walk rootDir dir (entry :: rest) results =
    (r1 ← contribution env walk rootDir dir entry;
     r2 ← walk_entries env walk rootDir dir rest [];
     Returned (results ++ r1 ++ r2)).
Proof.
  intros Hw. pose proof (walk_entries_appends walk rootDir dir rest Hw dir) as Hrest.
  simpl in Hrest. rewrite walk_entries_step. unfold contribution.
  destruct (action env dir entry); simpl.
  - by rewrite Hrest.
  - rewrite (Hw _ results). destruct (walk _ []) as [r1| |]; simpl; [|done..].
    rewrite Hrest. destruct (walk_entries env walk rootDir dir rest []); simpl; [|done..].
    by rewrite app_assoc.
  - rewrite Hrest. destruct (walk_entries env walk rootDir dir rest []); simpl; [|done..].
    by rewrite <-app_assoc.
Qed.

Lemma walk_entries_cons_inv walk rootDir dir entry rest r :
  appends walk →
  walk_entries env walk rootDir dir (entry :: rest) [] = Returned r →
  ∃ r1 r2, contribution env walk rootDir dir entry = Returned r1
    ∧ walk_entries env walk rootDir dir rest [] = Returned r2 ∧ r = r1 ++ r2.
Proof.
  intros Hw. rewrite (walk_entries_contribution _ _ _ _ _ _ Hw).
  destruct (contribution _ _ _ _ _) as [r1| |]; simpl; [|done..].
  destruct (walk_entries _ _ _ _ _ _) as [r2| |]; simpl; [|done..].
  intros [= <-]. by exists r1, r2.
Qed.

Lemma walk_entries_cons_intro walk rootDir dir entry rest r1 r2 :
  appends walk →
  contribution env walk rootDir dir entry = Returned r1 →
  walk_entries env walk rootDir dir rest [] = Returned r2 →
  walk_entries env walk rootDir dir (entry :: rest) [] = Returned (r1 ++ r2).
Proof. intros Hw H1 H2. by rewrite (walk_entries_contribution _ _ _ _ _ _ Hw), H1, H2. Qed.

(** The same walker on a permuted listing. *)
Lemma walk_entries_Permutation walk rootDir dir entries entries' r :
  appends walk → entries ≡ₚ entries' →
  walk_entries env walk rootDir dir entries [] = Returned r →
  ∃ r', walk_entries env walk rootDir dir entries' [] = Returned r' ∧ r ≡ₚ r'.
Proof.
  intros Hw Hperm. revert r.
  induction Hperm as [|x l l' _ IH|x y l|l l' l'' _ IH1 _ IH2]; intros r Hr.
  - by exists r.
  - apply walk_entries_cons_inv in Hr as (r1 & r2 & H1 & H2 & ->); [|done].
    destruct (IH _ H2) as (r2' & H2' & Hp).
    exists (r1 ++ r2'). split; [by apply walk_entries_cons_intro|by rewrite Hp].
  - apply walk_entries_cons_inv in Hr as (ry & r0 & Hy & H0 & ->); [|done].
    apply walk_entries_cons_inv in H0 as (rx & r2 & Hx & H2 & ->); [|done].
    exists (rx ++ ry ++ r2). split.
    + by do 2 (apply walk_entries_cons_intro; [done..|]).
    + rewrite !app_assoc. f_equiv. apply Permutation_app_comm.
  - destruct (IH1 _ Hr) as (r' & Hr' & Hp). destruct (IH2 _ Hr') as (r'' & Hr'' & Hp').
    exists r''. split; [done|by etrans].
Qed.

(** Another walker, which finds the same files, on the same listing. *)
Lemma walk_entries_related walk walk' rootDir dir entries r :
  appends walk → appends walk' →
  (∀ p r, walk p [] = Returned r → ∃ r', walk' p [] = Returned r' ∧ r ≡ₚ r') →
  walk_entries env walk rootDir dir entries [] = Returned r →
  ∃ r', walk_entries env walk' rootDir dir entries [] = Returned r' ∧ r ≡ₚ r'.
Proof.
  intros Hw Hw' Hrel. revert r. induction entries as [|entry rest IH]; intros r Hr.
  { by exists r. }
  apply walk_entries_cons_inv in Hr as (r1 & r2 & H1 & H2 & ->); [|done].
  destruct (IH _ H2) as (r2' & H2' & Hp2).
  assert (∃ r1', contribution env walk' rootDir dir entry = Returned r1' ∧ r1 ≡ₚ r1')
    as (r1' & H1' & Hp1).
  { unfold contribution in *. destruct (action env dir entry); eauto. }
  exists (r1' ++ r2'). split; [by apply walk_entries_cons_intro|by rewrite Hp1, Hp2].
Qed.

(** *** Conflicts and repeated slugs *)

Lemma loaded_validated f m : loaded env f = Some m → validated env m.
Proof.
  unfold loaded, loadAndValidateMode, validated.
  destruct (readFile env (fullPath f)) as [raw|e]; simpl; [|done].
  destruct (yaml_parse env raw) as [parsed|e]; simpl; [|done].
  destruct (falsy parsed || negb (typeof_object parsed) || isArray parsed); simpl; [done|].
  destruct (modeConfigSchema_safeParse env parsed) eqn:Hs; simpl; [|done].
  intros [= <-]. eauto.
Qed.

Lemma conflict_cons_S f files i j s :
  conflict env (f :: files) (S i) (S j) s ↔ conflict env files i j s.
Proof.
  unfold conflict. simpl. split; intros (Hij & H); (split; [lia|done]).
Qed.

Lemma loaded_modes_cons f files :
  loaded_modes env (f :: files) =
    match loaded env f with
    | Some m => m :: loaded_modes env files
    | None => loaded_modes env files
    end.
Proof. done. Qed.

Lemma elem_of_loaded_slugs files g n k :
  files !! k = Some g → loaded env g = Some n → slug n ∈ slug <$> loaded_modes env files.
Proof.
  intros Hk Hn. apply list_elem_of_fmap_2, list_elem_of_omap.
  exists g. split; [by eapply list_elem_of_lookup_2|done].
Qed.

Lemma no_conflict_NoDup files :
  (∀ i j s, ¬ conflict env files i j s) → NoDup (slug <$> loaded_modes env files).
Proof.
  induction files as [|f files IH]; intros Hno; [constructor|].
  assert (Hrest : ∀ i j s, ¬ conflict env files i j s).
  { intros i j s Hc. apply (Hno (S i) (S j) s). by apply conflict_cons_S. }
  rewrite loaded_modes_cons. destruct (loaded env f) as [m|] eqn:Hf; [|by apply IH].
  rewrite fmap_cons. constructor; [|by apply IH].
  intros (n & Hs & Hn)%list_elem_of_fmap.
  apply list_elem_of_omap in Hn as (g & Hg & Hgn).
  apply list_elem_of_lookup in Hg as [k Hk].
  apply (Hno 0 (S k) (slug m)). split; [lia|]. by exists f, g, m, n.
Qed.

Lemma NoDup_no_conflict files i j s :
  NoDup (slug <$> loaded_modes env files) → ¬ conflict env files i j s.
Proof.
  revert i j. induction files as [|f files IH]; intros i j Hnd Hc.
  { destruct Hc as (_ & f & g & m & n & H & _). by rewrite lookup_nil in H. }
  destruct j as [|j]; [destruct Hc; lia|]. rewrite loaded_modes_cons in Hnd.
  destruct i as [|i].
  - destruct Hc as (_ & f' & g & m & n & [= <-] & Hj & Hm & Hn & Hs & Hs').
    simpl in Hj. rewrite Hm, fmap_cons in Hnd. apply NoDup_cons in Hnd as [Hnotin _].
    apply Hnotin. replace (slug m) with (slug n) by congruence.
    by eapply elem_of_loaded_slugs.
  - apply (proj1 (conflict_cons_S f files i j s)) in Hc. apply (IH i j); [|done].
    destruct (loaded env f); [|done]. rewrite fmap_cons in Hnd.
    by apply NoDup_cons in Hnd as [_ ?].
Qed.

Lemma NoDup_slug_inj (l : list ModeConfig) a b :
  NoDup (slug <$> l) → a ∈ l → b ∈ l → slug a = slug b → a = b.
Proof.
  induction l as [|x l IH]; intros Hnd Ha Hb Hs; [by apply elem_of_nil in Ha|].
  simpl in Hnd. apply NoDup_cons in Hnd as [Hx Hl].
  apply elem_of_cons in Ha as [->|Ha]; apply elem_of_cons in Hb as [->|Hb]; auto.
  - exfalso. apply Hx. rewrite Hs. by apply list_elem_of_fmap_2.
  - exfalso. apply Hx. rewrite <-Hs. by apply list_elem_of_fmap_2.
Qed.

End LoaderFacts.

Section ListingOrder.
Variable env : Env.

#[local] Arguments walk : simpl never.
#[local] Arguments walk_entries : simpl never.

Lemma walk_same_listing readdir' fuel rootDir dir r :
  (∀ d, same_listing (readdir env d) (readdir' d)) →
  walk env fuel rootDir dir [] = Returned r →
  ∃ r', walk (with_readdir env readdir') fuel rootDir dir [] = Returned r' ∧ r ≡ₚ r'.
Proof.
  intros Hsame. revert dir r. induction fuel as [|fuel IH]; intros dir r; [done|].
  rewrite !walk_S. specialize (Hsame dir). simpl.
  destruct (readdir env dir) as [l|e], (readdir' dir) as [l'|e']; try done.
  - simpl in Hsame. intros Hr.
    destruct (walk_entries_Permutation env _ _ _ _ _ _ (walk_appends env fuel rootDir) Hsame Hr)
      as (r1 & Hr1 & Hp1).
    destruct (walk_entries_related env _ (walk (with_readdir env readdir') fuel rootDir)
                _ _ _ _ (walk_appends env fuel rootDir)
                (walk_appends (with_readdir env readdir') fuel rootDir) IH Hr1)
      as (r2 & Hr2 & Hp2).
    exists r2. split; [exact Hr2|by etrans].
  - intros [= <-]. by exists [].
Qed.

Lemma loaded_modes_with_readdir readdir' files :
  loaded_modes (with_readdir env readdir') files = loaded_modes env files.
Proof. done. Qed.

Lemma scan_same_listing readdir' fuel rootDir files :
  (∀ d, same_listing (readdir env d) (readdir' d)) →
  scanForModeFiles env fuel rootDir = Returned files →
  ∃ files', scanForModeFiles (with_readdir env readdir') fuel rootDir = Returned files'
    ∧ files ≡ₚ files'.
Proof. apply walk_same_listing. Qed.

(** C6: what the loader returns does not depend on the order in which the
    directories list their entries.  With every listing permuted, the
    loader returns the same list of modes, which is sorted by slug in the
    order of [localeCompare]; and when it throws, the two runs have scanned
    the same files, each throws a duplicate-slug error for two of them, and
    the two messages need not be the same. *)
Theorem loading_is_independent_of_listing_order readdir' fuel rootDir :
  (∀ d, same_listing (readdir env d) (readdir' d)) →
  collates_slugs env →
  (∀ modes,
     loadModesFromDirectory env fuel rootDir = Returned modes →
     loadModesFromDirectory (with_readdir env readdir') fuel rootDir = Returned modes
     ∧ StronglySorted (ordered (compare_slug env)) modes)
  ∧ (∀ msg,
       loadModesFromDirectory env fuel rootDir = Thrown msg →
       ∃ files files' msg',
         scanForModeFiles env fuel rootDir = Returned files
         ∧ scanForModeFiles (with_readdir env readdir') fuel rootDir = Returned files'
         ∧ files ≡ₚ files'
         ∧ duplicate_error env files msg
         ∧ loadModesFromDirectory (with_readdir env readdir') fuel rootDir = Thrown msg'
         ∧ duplicate_error env files' msg').
Proof.
  intros Hsame [Hcons Hstrict].
  destruct (scanForModeFiles env fuel rootDir) as [files|e|] eqn:Hscan.
  2:{ by destruct (walk_not_thrown env fuel rootDir rootDir [] e). }
  2:{ unfold loadModesFromDirectory. rewrite Hscan. by split. }
  destruct (scan_same_listing _ _ _ _ Hsame Hscan) as (files' & Hscan' & Hperm).
  rewrite (loadModesFromDirectory_scanned env _ _ _ Hscan).
  rewrite (loadModesFromDirectory_scanned _ _ _ _ Hscan'), Hscan'.
  pose proof (load_files_outcome env files) as H.
  pose proof (load_files_outcome (with_readdir env readdir') files') as H'.
  change (load_files (with_readdir env readdir')) with (load_files env) in *.
  change (loaded_modes (with_readdir env readdir')) with (loaded_modes env) in *.
  change (conflict (with_readdir env readdir')) with (conflict env) in *.
  change (duplicate_error (with_readdir env readdir')) with (duplicate_error env) in *.
  assert (Hmodes : loaded_modes env files ≡ₚ loaded_modes env files')
    by (unfold loaded_modes; by rewrite Hperm).
  split.
  - intros modes Hret.
    destruct (load_files env files [] ∅) as [ms| |]; [|done..].
    destruct H as [-> Hno]. simpl in Hret. injection Hret as <-.
    pose proof (no_conflict_NoDup env _ Hno) as Hnd.
    assert (Hsorted : ∀ l, StronglySorted (ordered (compare_slug env))
                             (array_sort (compare_slug env) l)).
    { intros l. apply (array_sort_StronglySorted _ (fun _ => True)); [done|].
      by apply Forall_forall. }
    split; [|apply Hsorted].
    destruct (load_files env files' [] ∅) as [ms'|msg|].
    + destruct H' as [-> _]. simpl. f_equal.
      apply (StronglySorted_unique_strong (ordered (compare_slug env))); [|apply Hsorted..|].
      * intros a b Ha Hb Hab Hba. rewrite array_sort_Permutation in Ha, Hb.
        rewrite <-Hmodes in Ha.
        apply (NoDup_slug_inj _ a b Hnd Ha Hb).
        apply list_elem_of_omap in Ha as (fa & _ & Hfa).
        apply list_elem_of_omap in Hb as (fb & _ & Hfb).
        apply Hstrict; [by eapply loaded_validated..|done|done].
      * by rewrite !array_sort_Permutation.
    + exfalso. destruct (duplicate_error_conflict _ _ _ H') as (i & j & s & Hc).
      apply (NoDup_no_conflict env files' i j s); [|done]. by rewrite <-Hmodes.
    + done.
  - intros msg Hthrow.
    destruct (load_files env files [] ∅) as [ms|msg0|]; [done| |done].
    destruct (duplicate_error_conflict _ _ _ H) as (i & j & s & Hc).
    destruct (load_files env files' [] ∅) as [ms'|msg'|]; [| |done].
    2:{ exists files, files', msg'. simpl in Hthrow. injection Hthrow as <-. done. }
    exfalso. destruct H' as [_ Hno'].
    apply (NoDup_no_conflict env files i j s); [|done].
    rewrite Hmodes. by apply no_conflict_NoDup.
Qed.

End ListingOrder.

(** ** The precedence merge *)

Section PrecedenceFacts.
Import CustomModesManager.










End PrecedenceFacts.

(** ** The loader on concrete trees *)

Section LexicalOrder.
Import CustomModesManager.

Lemma lexical_compare_total a b :
  (0 ≤ lexical_compare a b)%Z → (lexical_compare b a ≤ 0)%Z.
Proof.
  unfold lexical_compare. rewrite (String.compare_antisym b a).
  destruct (String.compare a b); simpl; lia.
Qed.

Lemma lexical_compare_le a b :
  (lexical_compare a b ≤ 0)%Z ↔ a = b ∨ String_as_OT.lt a b.
Proof.
  unfold lexical_compare. rewrite <-String_as_OT.cmp_lt.
  change String_as_OT.cmp with String.compare.
  destruct (String.compare a b) eqn:Hc.
  - apply String.compare_eq_iff in Hc. split; [by left|lia].
  - split; [by right|lia].
  - split; [lia|]. intros [->|?]; [|done].
    assert (H : String.compare b b = Eq) by by apply String_as_OT.cmp_eq.
    congruence.
Qed.

Lemma lexical_compare_trans a b c :
  (lexical_compare a b ≤ 0)%Z → (lexical_compare b c ≤ 0)%Z → (lexical_compare a c ≤ 0)%Z.
Proof.
  rewrite !lexical_compare_le. intros [->|Hab] [->|Hbc]; auto.
  right. by eapply String_as_OT.lt_trans.
Qed.

Lemma lexical_compare_antisym a b :
  (lexical_compare a b ≤ 0)%Z → (lexical_compare b a ≤ 0)%Z → a = b.
Proof.
  unfold lexical_compare. rewrite (String.compare_antisym b a).
  destruct (String.compare a b) eqn:Hc; simpl; try lia.
  intros _ _. by apply String.compare_eq_iff.
Qed.

Lemma swap_case_involutive c : Fixture.swap_case (Fixture.swap_case c) = c.
Proof. by destruct c as [[] [] [] [] [] [] [] []]. Qed.

Lemma swap_cases_involutive s : Fixture.swap_cases (Fixture.swap_cases s) = s.
Proof.
  induction s as [|c s IH]; [done|].
  cbn [Fixture.swap_cases]. by rewrite swap_case_involutive, IH.
Qed.

(** The collation is the order of the letters, and then that of the cases. *)
Lemma collation_compare_le a b :
  (Fixture.collation_compare a b ≤ 0)%Z
  ↔ String_as_OT.lt (Js.toLowerCase a) (Js.toLowerCase b)
    ∨ (Js.toLowerCase a = Js.toLowerCase b
       ∧ (lexical_compare (Fixture.swap_cases a) (Fixture.swap_cases b) ≤ 0)%Z).
Proof.
  unfold Fixture.collation_compare. rewrite <-String_as_OT.cmp_lt.
  change String_as_OT.cmp with String.compare.
  destruct (String.compare (Js.toLowerCase a) (Js.toLowerCase b)) eqn:Hc.
  - apply String.compare_eq_iff in Hc. split; [by right|]. by intros [?|[_ ?]].
  - split; [by left|lia].
  - split; [lia|]. intros [?|[Heq _]]; [done|].
    rewrite Heq in Hc.
    assert (H : String.compare (Js.toLowerCase b) (Js.toLowerCase b) = Eq)
      by by apply String_as_OT.cmp_eq.
    congruence.
Qed.

Lemma collation_compare_total a b :
  (0 ≤ Fixture.collation_compare a b)%Z → (Fixture.collation_compare b a ≤ 0)%Z.
Proof.
  unfold Fixture.collation_compare.
  rewrite (String.compare_antisym (Js.toLowerCase b) (Js.toLowerCase a)).
  destruct (String.compare (Js.toLowerCase a) (Js.toLowerCase b)); simpl;
    [apply lexical_compare_total|lia..].
Qed.

Lemma collation_compare_trans a b c :
  (Fixture.collation_compare a b ≤ 0)%Z → (Fixture.collation_compare b c ≤ 0)%Z →
  (Fixture.collation_compare a c ≤ 0)%Z.
Proof.
  rewrite !collation_compare_le. intros [Hab|[Hab Hab']] [Hbc|[Hbc Hbc']].
  - left. by eapply String_as_OT.lt_trans.
  - left. by rewrite <-Hbc.
  - left. by rewrite Hab.
  - right. split; [congruence|]. by eapply lexical_compare_trans.
Qed.

(** The collation tells two different strings apart. *)
Lemma collation_compare_antisym a b :
  (Fixture.collation_compare a b ≤ 0)%Z → (Fixture.collation_compare b a ≤ 0)%Z → a = b.
Proof.
  rewrite !collation_compare_le. intros [Hab|[Hab Hab']] [Hba|[Hba Hba']].
  - destruct (String_as_OT.lt_not_eq _ _ (String_as_OT.lt_trans _ _ _ Hab Hba)). done.
  - by destruct (String_as_OT.lt_not_eq _ _ Hab).
  - by destruct (String_as_OT.lt_not_eq _ _ Hba).
  - rewrite <-(swap_cases_involutive a), <-(swap_cases_involutive b). f_equal.
    by apply lexical_compare_antisym.
Qed.

Lemma fixture_collates_slugs dirs files documents :
  collates_slugs (Fixture.env dirs files documents).
Proof.
  split; [split|].
  - intros a b _ _. apply collation_compare_total.
  - intros a b c _ _ _. apply collation_compare_trans.
  - intros m1 m2 _ _. apply collation_compare_antisym.
Qed.

End LexicalOrder.

Section Witnesses.
Import Fixture CustomModesManager.

Lemma table_lookup_singleton {A : Type} (k : string) (v : A) (key : string) :
  table_lookup [(k, v)] key = if String.eqb k key then Some v else None.
Proof. unfold table_lookup. cbn [List.find fst]. by destruct (String.eqb k key). Qed.

Lemma duplicate_slug_is_fatal_witness :
  scanForModeFiles dup_env 1 "/r" = Returned dup_files
  ∧ conflict dup_env dup_files 0 1 "dup"
  ∧ loadModesFromDirectory dup_env 1 "/r" =
      Thrown (String.append "Duplicate mode slug detected: "
                (String.append quote (String.append "dup" (String.append quote
                   ". Files: /r/a.yaml and /r/b.yaml"))))
  ∧ names (String.append "Duplicate mode slug detected: "
             (String.append quote (String.append "dup" (String.append quote
                ". Files: /r/a.yaml and /r/b.yaml")))) "/r/a.yaml"
  ∧ names (String.append "Duplicate mode slug detected: "
             (String.append quote (String.append "dup" (String.append quote
                ". Files: /r/a.yaml and /r/b.yaml")))) "/r/b.yaml".
Proof.
  assert (Hscan : scanForModeFiles dup_env 1 "/r" = Returned dup_files) by reflexivity.
  assert (Hc : conflict dup_env dup_files 0 1 "dup").
  { split; [lia|]. eexists _, _, _, _. repeat split; reflexivity. }
  split; [exact Hscan|]. split; [exact Hc|].
  destruct (duplicate_slug_is_fatal dup_env 1 "/r" dup_files 0 1 "dup" Hscan Hc) as [_ Honly].
  destruct Honly as (f & g & msg & Hf & Hg & Hthrow & -> & Hnf & Hng).
  { intros i' j' s' (Hlt & f & g & m & n & Hi & Hj & _).
    apply lookup_lt_Some in Hj. simpl in Hj. lia. }
  injection Hf as <-. injection Hg as <-.
  split; [exact Hthrow|]. split; [exact Hnf|exact Hng].
Defined.


Lemma malformed_file_is_skipped_witness :
  scanForModeFiles mixed_env 1 "/r" =
    Returned ([mkFileEntry "/r/good.yaml" "good.yaml"]
              ++ mkFileEntry "/r/bad.yaml" "bad.yaml" :: [mkFileEntry "/r/ok.yaml" "ok.yaml"])
  ∧ content_error mixed_env "/r/bad.yaml" = true
  ∧ loadModesFromDirectory mixed_env 1 "/r" =
      Returned [mode "alpha" "Alpha"; mode "beta" "Beta"].
Proof.
  split; [reflexivity|]. split; [reflexivity|].
  rewrite (proj1 (malformed_file_is_skipped mixed_env 1 "/r"
                    [mkFileEntry "/r/good.yaml" "good.yaml"]
                    (mkFileEntry "/r/bad.yaml" "bad.yaml")
                    [mkFileEntry "/r/ok.yaml" "ok.yaml"] eq_refl eq_refl)).
  reflexivity.
Defined.

Lemma loadAndValidateMode_never_throws_witness :
  content_error mixed_env "/r/bad.yaml" = true
  ∧ loadAndValidateMode mixed_env "/r/bad.yaml" = Returned None.
Proof.
  split; [reflexivity|].
  apply (proj1 (proj2 (proj2 (loadAndValidateMode_never_throws mixed_env "/r/bad.yaml")))).
  reflexivity.
Defined.

(** C4 as stated does not hold of the code: here the file cannot be read,
    and the per-file loader returns null instead of throwing. *)
Lemma loadAndValidateMode_read_failure_is_null :
  readFile mixed_env "/r/missing.yaml" = Err "ENOENT"
  ∧ loadAndValidateMode mixed_env "/r/missing.yaml" = Returned None
  ∧ ¬ ∃ err, loadAndValidateMode mixed_env "/r/missing.yaml" = Thrown err.
Proof. split; [reflexivity|]. split; [reflexivity|]. by intros [err ?]. Qed.

Lemma modes_come_from_candidate_files_witness :
  scanForModeFiles tree_env 2 "/r" = Returned tree_files
  ∧ (∀ f, f ∈ tree_files →
       ∃ chain name_, located tree_env "/r" chain name_ f
         ∧ Forall (fun d => d ∉ EXCLUDED_DIRS) chain
         ∧ Js.toLowerCase (NodePath.extname name_) ∈ ALLOWED_EXTENSIONS
         ∧ Js.startsWith (path_basename tree_env (fullPath f)) "_" = false)
  ∧ loadModesFromDirectory tree_env 2 "/r" =
      Returned [mode "alpha" "Alpha"; mode "beta" "Beta"; mode "gamma" "Gamma"].
Proof.
  assert (Hscan : scanForModeFiles tree_env 2 "/r" = Returned tree_files) by reflexivity.
  split; [exact Hscan|]. split; [|reflexivity].
  intros f Hf.
  destruct (proj1 (modes_come_from_candidate_files tree_env 2 "/r" tree_files Hscan) f Hf)
    as (chain & name_ & H1 & H2 & _ & _ & H3 & H4).
  exists chain, name_. split; [exact H1|]. split; [exact H2|]. split; [exact H3|exact H4].
Defined.

Lemma loading_is_independent_of_listing_order_witness :
  (∀ d, same_listing (readdir case_env d) (case_readdir' d))
  ∧ collates_slugs case_env
  ∧ loadModesFromDirectory case_env 1 "/r" = Returned case_modes
  ∧ loadModesFromDirectory (with_readdir case_env case_readdir') 1 "/r" = Returned case_modes
  ∧ StronglySorted (ordered (compare_slug case_env)) case_modes.
Proof.
  assert (Hsame : ∀ d, same_listing (readdir case_env d) (case_readdir' d)).
  { intros d. unfold case_readdir', case_env, env. cbn [readdir].
    rewrite !table_lookup_singleton.
    destruct (String.eqb "/r" d); [|exact I].
    unfold same_listing. symmetry. apply (reverse_Permutation [file "1.yaml"; file "2.yaml"; file "3.yaml";
                                          file "4.yaml"]). }
  assert (Hcol : collates_slugs case_env) by apply fixture_collates_slugs.
  split; [exact Hsame|]. split; [exact Hcol|]. split; [reflexivity|].
  destruct (loading_is_independent_of_listing_order case_env case_readdir' 1 "/r" Hsame Hcol)
    as [Hret _].
  apply (Hret case_modes). reflexivity.
Defined.

(** C6 as stated does not hold of the code.  The list is sorted in the order
    of [localeCompare], which is not the simple lexical order: alpha stands
    before Alpha and beta before Beta, where the lexical order has the upper
    case first.  And two runs that throw do not give identical results: with
    the listing permuted, the message names the two paths in the other
    order. *)
Lemma sorted_order_is_not_lexical_and_errors_differ :
  (loadModesFromDirectory case_env 1 "/r" = Returned case_modes
   ∧ ¬ StronglySorted (fun a b => (lexical_compare (slug a) (slug b) ≤ 0)%Z) case_modes)
  ∧ ((∀ d, same_listing (readdir dup_env d) (dup_readdir' d))
     ∧ loadModesFromDirectory dup_env 1 "/r"
       = Thrown (duplicate_message "dup" "/r/a.yaml" "/r/b.yaml")
     ∧ loadModesFromDirectory (with_readdir dup_env dup_readdir') 1 "/r"
       = Thrown (duplicate_message "dup" "/r/b.yaml" "/r/a.yaml")
     ∧ duplicate_message "dup" "/r/a.yaml" "/r/b.yaml"
       ≠ duplicate_message "dup" "/r/b.yaml" "/r/a.yaml").
Proof.
  split; [split; [reflexivity|]|].
  - intros Hsorted. apply StronglySorted_inv in Hsorted as [_ Hfirst].
    apply Forall_cons in Hfirst as [Hle _]. by vm_compute in Hle.
  - split; [|split; [reflexivity|split; [reflexivity|discriminate]]].
    intros d. unfold dup_readdir', dup_env, env. cbn [readdir].
    rewrite !table_lookup_singleton.
    destruct (String.eqb "/r" d); [apply perm_swap|exact I].
Qed.

Lemma hidden_directory_not_walked_witness :
  (Dirent.isDirectory (dir ".git") = true ∧ Js.startsWith ".git" "." = true
   ∧ ∀ walk, walk_entries tree_env walk "/r" "/r" [dir ".git"; file "mode.Yml"] [] =
               walk_entries tree_env walk "/r" "/r" [file "mode.Yml"] [])
  ∧ (∀ walk, walk_entries tree_env walk "/r" "/r" [dir ".roo"; file "mode.Yml"] [] =
               (results' ← walk "/r/.roo" [];
                walk_entries tree_env walk "/r" "/r" [file "mode.Yml"] results'))
  ∧ (scanForModeFiles tree_env 2 "/r" = Returned tree_files
     ∧ ∀ f, f ∈ tree_files →
         ∃ chain name_,
           located tree_env "/r" chain name_ f
           ∧ Forall (fun d => Js.startsWith d "." = true → d = ".roo") chain).
Proof.
  destruct (hidden_directory_not_walked tree_env) as [Hentry Hscan].
  split; [split; [reflexivity|split; [reflexivity|]]|split; [|split; [reflexivity|]]].
  - apply (proj1 (Hentry "/r" "/r" (dir ".git") [file "mode.Yml"] [] eq_refl eq_refl)).
    discriminate.
  - apply (proj2 (Hentry "/r" "/r" (dir ".roo") [file "mode.Yml"] [] eq_refl eq_refl)).
    reflexivity.
  - intros f Hf. apply (Hscan 2 "/r" tree_files f eq_refl Hf).
Defined.

Lemma extension_filter_ignores_case_witness :
  (same_ignoring_case "MODE.YAML" "mode.Yaml" = true
   ∧ ("MODE.YAML" ∉ EXCLUDED_FILES) ∧ ("mode.Yaml" ∉ EXCLUDED_FILES)
   ∧ Js.startsWith (path_basename tree_env (path_join tree_env "/r" "MODE.YAML")) "_" = false
   ∧ Js.startsWith (path_basename tree_env (path_join tree_env "/r" "mode.Yaml")) "_" = false
   ∧ ∃ pushed : bool,
       walk_entries tree_env (walk tree_env 1 "/r") "/r" "/r" [file "MODE.YAML"] [] =
         Returned (if pushed then [mkFileEntry "/r/MODE.YAML" "MODE.YAML"] else [])
       ∧ walk_entries tree_env (walk tree_env 1 "/r") "/r" "/r" [file "mode.Yaml"] [] =
           Returned (if pushed then [mkFileEntry "/r/mode.Yaml" "mode.Yaml"] else []))
  ∧ (has_char "/" "ode" = false ∧ plain "Yml" ∧ plain "txt"
     ∧ walk_entries tree_env (walk tree_env 1 "/r") "/r" "/r" [file "mode.Yml"] [] =
         Returned [mkFileEntry "/r/mode.Yml" "mode.Yml"]
     ∧ walk_entries tree_env (walk tree_env 1 "/r") "/r" "/r" [file "mode.txt"] [] =
         Returned []).
Proof.
  assert (H1 : "MODE.YAML" ∉ EXCLUDED_FILES) by (apply (bool_decide_eq_false_1 _); reflexivity).
  assert (H2 : "mode.Yaml" ∉ EXCLUDED_FILES) by (apply (bool_decide_eq_false_1 _); reflexivity).
  assert (H3 : "mode.Yml" ∉ EXCLUDED_FILES) by (apply (bool_decide_eq_false_1 _); reflexivity).
  assert (H4 : "mode.txt" ∉ EXCLUDED_FILES) by (apply (bool_decide_eq_false_1 _); reflexivity).
  assert (Hyml : plain "Yml") by (split; reflexivity).
  assert (Htxt : plain "txt") by (split; reflexivity).
  destruct (extension_filter_ignores_case tree_env (walk tree_env 1 "/r") "/r" "/r" [] [])
    as [Hcase Hshape].
  split.
  - split; [reflexivity|]. split; [exact H1|]. split; [exact H2|].
    split; [reflexivity|]. split; [reflexivity|].
    destruct (Hcase "MODE.YAML" "mode.Yaml" eq_refl H1 H2 eq_refl eq_refl)
      as (pushed & Hupper & Hlower).
    exists pushed. split; [destruct pushed; exact Hupper|destruct pushed; exact Hlower].
  - split; [reflexivity|]. split; [exact Hyml|]. split; [exact Htxt|]. split.
    + apply (Hshape "m"%char "ode" "Yml" eq_refl eq_refl eq_refl Hyml H3 eq_refl).
    + apply (Hshape "m"%char "ode" "txt" eq_refl eq_refl eq_refl Htxt H4 eq_refl).
Defined.

Lemma duplicates_among_loaded_files_only_witness :
  scanForModeFiles half_env 1 "/r" = Returned dup_files
  ∧ loaded half_env (mkFileEntry "/r/a.yaml" "a.yaml") = Some (mode "dup" "Duplicate")
  ∧ content_error half_env "/r/b.yaml" = true
  ∧ loadModesFromDirectory half_env 1 "/r" = Returned [mode "dup" "Duplicate"].
Proof.
  split; [reflexivity|]. split; [reflexivity|]. split; [reflexivity|].
  destruct (duplicates_among_loaded_files_only half_env 1 "/r" dup_files eq_refl)
    as (_ & _ & Hone).
  apply (Hone (mkFileEntry "/r/a.yaml" "a.yaml") (mkFileEntry "/r/b.yaml" "b.yaml")
           (mode "dup" "Duplicate")); [by left|reflexivity..].
Defined.

End Witnesses.

(** * Further properties of the loader *)

Section ScanFacts.
Variable env : Env.

#[local] Arguments walk : simpl never.
#[local] Arguments walk_entries : simpl never.

Lemma walk_keeps_results fuel rootDir dir results results' :
  walk env fuel rootDir dir results = Returned results' → results `prefix_of` results'.
Proof.
  rewrite (walk_appends env fuel rootDir dir results).
  destruct (walk env fuel rootDir dir []) as [r| |]; simpl; [|done..].
  intros [= <-]. by exists r.
Qed.

Lemma walk_entries_keeps_results fuel rootDir dir entries results results' :
  walk_entries env (walk env fuel rootDir) rootDir dir entries results = Returned results' →
  results `prefix_of` results'.
Proof.
  pose proof (walk_entries_appends env _ rootDir dir entries (walk_appends env fuel rootDir)
                dir results) as H.
  simpl in H. rewrite H.
  destruct (walk_entries env _ rootDir dir entries []) as [r| |]; simpl; [|done..].
  intros [= <-]. by exists r.
Qed.

(** What the loop leaves in the results for the entries of a listing. *)
Lemma walk_entries_visits fuel rootDir dir entries results results' :
  walk_entries env (walk env fuel rootDir) rootDir dir entries results = Returned results' →
  ∀ entry, entry ∈ entries →
    match action env dir entry with
    | Skip => True
    | Descend =>
        ∃ r r', walk env fuel rootDir (path_join env dir (Dirent.name entry)) r = Returned r'
          ∧ r' `prefix_of` results'
    | Push => file_entry env rootDir dir (Dirent.name entry) ∈ results'
    end.
Proof.
  revert results. induction entries as [|e rest IH]; intros results Hw entry Hin.
  { by apply elem_of_nil in Hin. }
  rewrite walk_entries_step in Hw.
  apply elem_of_cons in Hin as [->|Hin].
  - destruct (action env dir e) eqn:Ha; [done| |].
    + destruct (walk env fuel rootDir _ results) as [r'| |] eqn:Hsub; simpl in Hw; [|done..].
      exists results, r'. split; [done|]. by eapply walk_entries_keeps_results.
    + apply walk_entries_keeps_results in Hw as [k ->].
      rewrite <-app_assoc. apply elem_of_app. right. by left.
  - destruct (action env dir e); [by eapply IH| |by eapply IH].
    destruct (walk env fuel rootDir _ results) as [r'| |]; simpl in Hw; [|done..].
    by eapply IH.
Qed.

Lemma walkable_directory_is_walked dir entry :
  Dirent.isDirectory entry = true → walkable (Dirent.name entry) →
  action env dir entry = Descend.
Proof.
  intros Hd [Hex Hdot]. unfold action, hidden. rewrite Hd.
  rewrite (bool_decide_eq_false_2 _ Hex), orb_false_r.
  destruct (Js.startsWith _ ".") eqn:Hs; [|done].
  rewrite (Hdot eq_refl). done.
Qed.

(** Every directory under walkable directories is walked, and what its walk
    returns stays in the result of the scan. *)
Lemma reached_directory_is_walked fuel rootDir files chain dir :
  scanForModeFiles env fuel rootDir = Returned files →
  reaches env rootDir chain dir → Forall walkable chain →
  ∃ fuel' r r', walk env fuel' rootDir dir r = Returned r' ∧ r' ⊆ files.
Proof.
  intros Hscan Hreach. induction Hreach as [|chain dir entries entry Hreach IH Hdir Hin Hd].
  - intros _. by exists fuel, [], files.
  - intros Hall. apply Forall_app in Hall as [Hchain Hname].
    apply (proj1 (Forall_singleton _ _)) in Hname.
    destruct (IH Hchain) as (fuel' & r & r' & Hw & Hsub).
    destruct fuel' as [|fuel']; [done|]. rewrite walk_S, Hdir in Hw.
    pose proof (walk_entries_visits _ _ _ _ _ _ Hw entry Hin) as Hv.
    rewrite (walkable_directory_is_walked dir entry Hd Hname) in Hv.
    destruct Hv as (r0 & r0' & Hw0 & [k ->]).
    exists fuel', r0, r0'. split; [done|]. intros x Hx. apply Hsub, elem_of_app. by left.
Qed.

(** X1: the scan finds every candidate.  A file listed in a directory that
    lies under directories that are neither excluded nor hidden (.roo apart)
    is in the result of the scan when it is not an excluded file, its
    lower-cased extension is .yaml or .yml and its base name does not start
    with an underscore; whether its own name starts with a dot plays no
    part. *)
Theorem scan_finds_every_candidate fuel rootDir files chain dir entries name_ :
  scanForModeFiles env fuel rootDir = Returned files →
  reaches env rootDir chain dir → Forall walkable chain →
  readdir env dir = Ok entries → Dirent.mk name_ false ∈ entries →
  name_ ∉ EXCLUDED_FILES →
  Js.toLowerCase (NodePath.extname name_) ∈ ALLOWED_EXTENSIONS →
  Js.startsWith (path_basename env (path_join env dir name_)) "_" = false →
  file_entry env rootDir dir name_ ∈ files.
Proof.
  intros Hscan Hreach Hchain Hdir Hin Hex Hext Hbase.
  destruct (reached_directory_is_walked _ _ _ _ _ Hscan Hreach Hchain)
    as (fuel' & r & r' & Hw & Hsub).
  destruct fuel' as [|fuel']; [done|]. rewrite walk_S, Hdir in Hw.
  pose proof (walk_entries_visits _ _ _ _ _ _ Hw _ Hin) as Hv.
  unfold action, extension_allowed in Hv. simpl in Hv.
  rewrite (bool_decide_eq_false_2 _ Hex), (bool_decide_eq_true_2 _ Hext), Hbase in Hv.
  by apply Hsub.
Qed.

Lemma walk_entries_ext walk1 walk2 rootDir dir entries results :
  (∀ entry r, entry ∈ entries → action env dir entry = Descend →
     walk1 (path_join env dir (Dirent.name entry)) r
     = walk2 (path_join env dir (Dirent.name entry)) r) →
  walk_entries env walk1 rootDir dir entries results
  = walk_entries env walk2 rootDir dir entries results.
Proof.
  revert results. induction entries as [|e rest IH]; intros results Hw; [done|].
  assert (Hrest : ∀ entry r, entry ∈ rest → action env dir entry = Descend →
     walk1 (path_join env dir (Dirent.name entry)) r
     = walk2 (path_join env dir (Dirent.name entry)) r).
  { intros entry r Hin. apply Hw. by right. }
  rewrite !walk_entries_step. destruct (action env dir e) eqn:Ha; [by apply IH| |by apply IH].
  rewrite (Hw e results); [|by left|done].
  destruct (walk2 _ results); simpl; [by apply IH|done..].
Qed.

Lemma walk_with_other_listings readdir' fuel rootDir chain dir results :
  (∀ chain dir, reaches env rootDir chain dir → Forall walkable chain →
     readdir' dir = readdir env dir) →
  reaches env rootDir chain dir → Forall walkable chain →
  walk (with_readdir env readdir') fuel rootDir dir results
  = walk env fuel rootDir dir results.
Proof.
  intros Hagree. revert chain dir results.
  induction fuel as [|fuel IH]; intros chain dir results Hreach Hchain; [done|].
  rewrite !walk_S. simpl. rewrite (Hagree chain dir Hreach Hchain).
  destruct (readdir env dir) as [entries|e] eqn:Hdir; [|done].
  change (walk_entries (with_readdir env readdir')) with (walk_entries env).
  apply walk_entries_ext. intros entry r Hin Ha.
  destruct (action_Descend env _ _ Ha) as [Hd Hw].
  apply (IH (chain ++ [Dirent.name entry])).
  - by eapply reaches_sub.
  - apply Forall_app. split; [done|by apply Forall_singleton].
Qed.

(** X5: the scan depends on the listings of the directories it walks only.
    Whatever [readdir] gives elsewhere (under an excluded or a hidden
    directory, or outside the tree) the scan gives the same files. *)
Theorem scan_ignores_directories_not_walked readdir' fuel rootDir :
  (∀ chain dir, reaches env rootDir chain dir → Forall walkable chain →
     readdir' dir = readdir env dir) →
  scanForModeFiles (with_readdir env readdir') fuel rootDir
  = scanForModeFiles env fuel rootDir.
Proof.
  intros Hagree. apply (walk_with_other_listings readdir' fuel rootDir [] rootDir []);
    [done|constructor|constructor].
Qed.

(** X6: the scan of a listing is the scan of its first part followed by the
    scan of the rest, and the results found so far are kept as they are. *)
Theorem scan_of_a_listing_composes fuel rootDir dir entries1 entries2 :
  walk_entries env (walk env fuel rootDir) rootDir dir (entries1 ++ entries2) [] =
    (r1 ← walk_entries env (walk env fuel rootDir) rootDir dir entries1 [];
     r2 ← walk_entries env (walk env fuel rootDir) rootDir dir entries2 [];
     Returned (r1 ++ r2))
  ∧ ∀ results results',
      walk_entries env (walk env fuel rootDir) rootDir dir (entries1 ++ entries2) results
      = Returned results' →
      results `prefix_of` results'.
Proof.
  split; [|intros results results'; apply walk_entries_keeps_results].
  rewrite walk_entries_app.
  destruct (walk_entries env _ rootDir dir entries1 []) as [r1| |]; simpl; [|done..].
  apply (walk_entries_appends env _ rootDir dir entries2 (walk_appends env fuel rootDir) dir r1).
Qed.

(** C7: a root directory that does not exist or cannot be read gives the
    empty list of modes, without an error.  A directory is scanned as if an
    unreadable subdirectory of it were not listed; and in a tree with such a
    subdirectory the rest is still scanned: every candidate file of every
    directory that the walk reaches is in the result of the scan. *)
Theorem unreadable_directory_contributes_nothing :
  (∀ fuel rootDir err,
     readdir env rootDir = Err err →
     loadModesFromDirectory env (S fuel) rootDir = Returned [])
  ∧ (∀ fuel rootDir dir before sub after results err,
       readdir env dir = Ok (before ++ sub :: after) →
       Dirent.isDirectory sub = true →
       readdir env (path_join env dir (Dirent.name sub)) = Err err →
       walk env (S (S fuel)) rootDir dir results =
         walk_entries env (walk env (S fuel) rootDir) rootDir dir (before ++ after) results)
  ∧ (∀ fuel rootDir files chain dir before sub after err chain' dir' entries name_,
       scanForModeFiles env fuel rootDir = Returned files →
       reaches env rootDir chain dir → Forall walkable chain →
       readdir env dir = Ok (before ++ sub :: after) →
       Dirent.isDirectory sub = true →
       readdir env (path_join env dir (Dirent.name sub)) = Err err →
       reaches env rootDir chain' dir' → Forall walkable chain' →
       readdir env dir' = Ok entries → Dirent.mk name_ false ∈ entries →
       name_ ∉ EXCLUDED_FILES →
       Js.toLowerCase (NodePath.extname name_) ∈ ALLOWED_EXTENSIONS →
       Js.startsWith (path_basename env (path_join env dir' name_)) "_" = false →
       file_entry env rootDir dir' name_ ∈ files).
Proof.
  split; [|split].
  - intros fuel rootDir err H. unfold loadModesFromDirectory, scanForModeFiles.
    by rewrite (walk_unreadable env _ _ _ _ _ H).
  - intros fuel rootDir dir before sub after results err Hdir Hsub Herr.
    rewrite (walk_S env (S fuel)), Hdir, !walk_entries_app.
    destruct (walk_entries env _ rootDir dir before results) as [r| |]; simpl; [|done..].
    rewrite walk_entries_step.
    destruct (action env dir sub) eqn:Ha; [done| |].
    + by rewrite (walk_unreadable env fuel rootDir _ r err Herr).
    + unfold action in Ha. rewrite Hsub in Ha. by destruct (_ || _) in Ha.
  - intros fuel rootDir files chain dir before sub after err chain' dir' entries name_
      Hscan _ _ _ _ _ Hreach Hchain Hdir Hin Hex Hext Hbase.
    destruct (reached_directory_is_walked _ _ _ _ _ Hscan Hreach Hchain)
      as (fuel' & r & r' & Hw & Hsub).
    destruct fuel' as [|fuel']; [done|]. rewrite walk_S, Hdir in Hw.
    pose proof (walk_entries_visits _ _ _ _ _ _ Hw _ Hin) as Hv.
    unfold action, extension_allowed in Hv. simpl in Hv.
    rewrite (bool_decide_eq_false_2 _ Hex), (bool_decide_eq_true_2 _ Hext), Hbase in Hv.
    by apply Hsub.
Qed.

End ScanFacts.

Section LoadFacts.
Variable env : Env.

(** The three tests of the per-file loader on the parsed document let
    through the mappings and nothing else. *)
Lemma single_object_iff_mapping v :
  falsy v || negb (typeof_object v) || isArray v = false ↔ ∃ fields, v = YMap fields.
Proof.
  split.
  - destruct v as [|b|z|s|items|fields]; simpl; try done.
    + by destruct b.
    + by destruct (z =? 0)%Z.
    + by destruct s.
    + intros _. by exists fields.
  - by intros [fields ->].
Qed.

(** X3: the per-file loader gives a mode exactly when the file can be read,
    its text parses to a mapping, and the schema accepts the mapping; the
    mode is then the data of the schema.  An empty document (null), a scalar
    and a sequence never reach the schema. *)
Theorem loadAndValidateMode_gives_validated_mappings filePath m :
  loadAndValidateMode env filePath = Returned (Some m)
  ↔ ∃ raw fields,
      readFile env filePath = Ok raw
      ∧ yaml_parse env raw = Ok (YMap fields)
      ∧ modeConfigSchema_safeParse env (YMap fields) = Success m.
Proof.
  unfold loadAndValidateMode. split.
  - destruct (readFile env filePath) as [raw|e]; simpl; [|done].
    destruct (yaml_parse env raw) as [parsed|e] eqn:Hp; simpl; [|done].
    destruct (falsy parsed || negb (typeof_object parsed) || isArray parsed) eqn:Hobj;
      simpl; [done|].
    apply single_object_iff_mapping in Hobj as [fields ->].
    destruct (modeConfigSchema_safeParse env (YMap fields)) as [data|issues] eqn:Hs;
      simpl; [|done].
    intros [= <-]. by exists raw, fields.
  - intros (raw & fields & -> & Hp & Hs). simpl. rewrite Hp. simpl. by rewrite Hs.
Qed.

(** X2: the list the loader returns holds one mode for each scanned file
    that loads, and no two of its modes have the same slug. *)
Theorem returned_modes_have_distinct_slugs fuel rootDir modes :
  loadModesFromDirectory env fuel rootDir = Returned modes →
  NoDup (slug <$> modes)
  ∧ ∃ files, scanForModeFiles env fuel rootDir = Returned files
      ∧ modes ≡ₚ loaded_modes env files
      ∧ (List.length modes ≤ List.length files)%nat.
Proof.
  unfold loadModesFromDirectory.
  destruct (scanForModeFiles env fuel rootDir) as [files| |]; simpl; [|done..].
  pose proof (load_files_outcome env files) as H.
  destruct (load_files env files [] ∅) as [ms| |]; simpl; [|done..].
  destruct H as [-> Hno]. intros [= <-].
  split.
  - rewrite array_sort_Permutation. by apply no_conflict_NoDup.
  - exists files. split; [done|]. split; [apply array_sort_Permutation|].
    rewrite array_sort_Permutation. clear Hno.
    induction files as [|f files IH]; [done|]. rewrite loaded_modes_cons.
    destruct (loaded env f); cbn [List.length]; lia.
Qed.

Lemma load_files_thrown_from rest seen modes slugToFile msg :
  tracks env seen slugToFile →
  load_files env rest modes slugToFile = Thrown msg →
  ∃ i j f g m n,
    i < j ∧ (seen ++ rest) !! i = Some f ∧ (seen ++ rest) !! j = Some g
    ∧ loaded env f = Some m ∧ loaded env g = Some n ∧ slug m = slug n
    ∧ msg = duplicate_message (slug n) (fullPath f) (fullPath g)
    ∧ ∀ i' j' s', ¬ conflict env (take j (seen ++ rest)) i' j' s'.
Proof.
  revert seen modes slugToFile.
  induction rest as [|f rest IH]; intros seen modes slugToFile Htr; [done|].
  rewrite load_files_step.
  replace (seen ++ f :: rest) with ((seen ++ [f]) ++ rest) by by rewrite <-app_assoc.
  destruct (loaded env f) as [m|] eqn:Hf.
  - destruct (slugToFile !! slug m) as [p|] eqn:Hp.
    + intros [= <-]. pose proof Htr as (H1 & _ & H3).
      destruct (H1 _ _ Hp) as (i & f0 & m0 & Hi & <- & Hm0 & Hs).
      exists i, (List.length seen), f0, f, m0, m.
      split; [by apply lookup_lt_Some in Hi|].
      split; [by do 2 apply lookup_app_l_Some|].
      split; [apply lookup_app_l_Some, lookup_snoc_Some; by right|].
      repeat split; try done.
      rewrite <-app_assoc. by rewrite take_app_length.
    + apply IH. by apply tracks_insert.
  - apply IH. by apply tracks_skip.
Qed.

(** X4: the duplicate-slug error names the first duplicate of the scan.
    The second path is that of the earliest file whose slug a file before it
    has, and the first path is that of the first file with this slug. *)
Theorem duplicate_error_names_first_conflict fuel rootDir files msg :
  scanForModeFiles env fuel rootDir = Returned files →
  loadModesFromDirectory env fuel rootDir = Thrown msg →
  ∃ i j f g s,
    msg = duplicate_message s (fullPath f) (fullPath g)
    ∧ conflict env files i j s ∧ files !! i = Some f ∧ files !! j = Some g
    ∧ (∀ i' j' s', conflict env files i' j' s' → (j ≤ j')%nat)
    ∧ (∀ i' f' m', files !! i' = Some f' → loaded env f' = Some m' → slug m' = s →
         (i ≤ i')%nat).
Proof.
  intros Hscan. rewrite (loadModesFromDirectory_scanned env _ _ _ Hscan).
  destruct (load_files env files [] ∅) as [ms|msg'|] eqn:Hload; simpl; [done| |done].
  intros [= ->].
  destruct (load_files_thrown_from files [] [] ∅ msg (tracks_empty env) Hload)
    as (i & j & f & g & m & n & Hij & Hi & Hj & Hm & Hn & Hs & -> & Hfirst).
  simpl in Hi, Hj, Hfirst.
  exists i, j, f, g, (slug n). split; [done|].
  split; [split; [done|]; by exists f, g, m, n|].
  split; [done|]. split; [done|]. split.
  - intros i' j' s' (Hlt & f' & g' & m' & n' & Hi' & Hj' & Hm' & Hn' & Hs1 & Hs2).
    destruct (decide (j ≤ j')%nat) as [|Hnle]; [done|]. exfalso.
    apply (Hfirst i' j' s'). split; [done|]. exists f', g', m', n'.
    rewrite !lookup_take_lt by lia. done.
  - intros i' f' m' Hi' Hm' Hs'.
    destruct (decide (i ≤ i')%nat) as [|Hnle]; [done|]. exfalso.
    apply (Hfirst i' i (slug n)). split; [lia|]. exists f', f, m', m.
    rewrite !lookup_take_lt by lia. done.
Qed.

End LoadFacts.

(** * Image blocks *)

Section ImageCleaningFacts.
Import ImageCleaning.
Context {Value : Type} (string_value : string → Value).

Lemma clean_block_not_image (block : Block Value) :
  block_type (clean_block string_value block) ≠ "image".
Proof.
  unfold clean_block. destruct (String.eqb_spec (block_type block) "image"); [|done].
  discriminate.
Qed.

Lemma cleaned_messages_have_no_image (messages : list (ApiMessage Value)) info out :
  not_supported info = true →
  maybeRemoveImageBlocks string_value messages (Ok info) = Returned out →
  ∀ message block, message ∈ out → block ∈ blocks_of message → block_type block ≠ "image".
Proof.
  intros Hno. unfold maybeRemoveImageBlocks. simpl. rewrite Hno. intros [= <-].
  intros message block Hm Hb.
  apply list_elem_of_fmap in Hm as (m & -> & _). unfold blocks_of in Hb. simpl in Hb.
  destruct (content m) as [s|blocks]; [by apply elem_of_nil in Hb|].
  apply list_elem_of_fmap in Hb as (b & -> & _). apply clean_block_not_image.
Qed.

(** X7: when the model does not support images, no block of the returned
    messages is an image block; the messages and their blocks are as many as
    before and in the same places, every image block being replaced by the
    placeholder text block and every other block, every text content and
    every other property of a message being kept. *)
Theorem unsupported_images_are_replaced (messages : list (ApiMessage Value)) info :
  not_supported info = true →
  ∃ out,
    maybeRemoveImageBlocks string_value messages (Ok info) = Returned out
    ∧ Forall2 (cleaned string_value) messages out
    ∧ ∀ message block, message ∈ out → block ∈ blocks_of message →
        block_type block ≠ "image".
Proof.
  intros Hno.
  assert (Hout : ∃ out, maybeRemoveImageBlocks string_value messages (Ok info) = Returned out
                   ∧ Forall2 (cleaned string_value) messages out).
  { unfold maybeRemoveImageBlocks. simpl. rewrite Hno. eexists. split; [done|].
    induction messages as [|m ms IH]; simpl; constructor; [|done].
    split; [done|]. simpl. destruct (content m) as [s|blocks]; [done|].
    induction blocks as [|b bs IHb]; simpl; constructor; [|done].
    unfold clean_block. by destruct (String.eqb _ "image"). }
  destruct Hout as (out & Hout & Hcleaned). exists out. split; [done|]. split; [done|].
  by eapply cleaned_messages_have_no_image.
Qed.

Lemma map_clean_block_id (blocks : list (Block Value)) :
  (∀ block, block ∈ blocks → block_type block ≠ "image") →
  map (clean_block string_value) blocks = blocks.
Proof.
  induction blocks as [|b bs IH]; intros H; simpl; [done|].
  rewrite IH by (intros block Hb; apply H; by right). f_equal.
  unfold clean_block. rewrite (proj2 (String.eqb_neq _ _)); [done|]. apply H. by left.
Qed.

Lemma messages_kept (messages : list (ApiMessage Value)) info :
  not_supported info = false
  ∨ (∀ message block, message ∈ messages → block ∈ blocks_of message →
       block_type block ≠ "image") →
  maybeRemoveImageBlocks string_value messages (Ok info) = Returned messages.
Proof.
  intros H. unfold maybeRemoveImageBlocks. simpl. f_equal.
  induction messages as [|m ms IH]; simpl; [done|].
  rewrite IH.
  2:{ destruct H as [H|H]; [by left|right]. intros message block Hm. apply H. by right. }
  f_equal. destruct m as [c props]. simpl. f_equal.
  destruct c as [s|blocks]; [done|].
  destruct (not_supported info) eqn:Hs; [|done].
  destruct H as [H|H]; [done|]. f_equal. apply map_clean_block_id.
  intros block Hb. apply (H (mkApiMessage (Blocks blocks) props)); [by left|done].
Qed.

(** X8: the messages are returned as they are when the model supports
    images, and also when it does not but no block is an image block. *)
Theorem messages_without_images_are_kept (messages : list (ApiMessage Value)) info :
  not_supported info = false
  ∨ (∀ message block, message ∈ messages → block ∈ blocks_of message →
       block_type block ≠ "image") →
  maybeRemoveImageBlocks string_value messages (Ok info) = Returned messages.
Proof. apply messages_kept. Qed.

(** X9: cleaning is idempotent: on its own result the function changes
    nothing, whatever the model of the second call supports; and an error
    of [fetchModel] is thrown to the caller whatever the messages are, even
    when there is none to clean. *)
Theorem cleaning_twice_changes_nothing (messages : list (ApiMessage Value)) info info' out :
  not_supported info = true →
  maybeRemoveImageBlocks string_value messages (Ok info) = Returned out →
  maybeRemoveImageBlocks string_value out (Ok info') = Returned out
  ∧ ∀ messages' err, maybeRemoveImageBlocks string_value messages' (Err err) = Thrown err.
Proof.
  intros Hno Hout. split; [|done].
  apply messages_kept. right. by eapply cleaned_messages_have_no_image.
Qed.

End ImageCleaningFacts.

(** * The logger of the command line *)

Section CLILoggerFacts.
Import CLILogger.
Context {Time : Type} (toISOString : Time → string) {Value : Type}.

(** X10: [error] does not look at the switch nor at the level of the logger.
    A logger that is disabled writes nothing with [log], at the level Error
    as at any other, and still hands an error to its transports; the console
    of a logger made with a level up to Error prints it on stderr. *)
Theorem error_is_written_by_a_disabled_logger
    (logger : Logger Time Value) now message error_ meta :
  (∀ level_, log (setEnabled logger false) now level_ message meta = [])
  ∧ error (setEnabled logger false) now message error_ meta
    = writeToTransports logger
        (mkLogEntry Error message now (spread (context logger) meta) error_)
  ∧ ∀ c, (c ≤ Error)%Z →
      error (setEnabled (new_CLILoggerProvider toISOString c) false) now message error_ meta
      = [ConsoleError (console_line toISOString now Error message) (spread ∅ meta)].
Proof.
  split; [done|]. split; [done|]. intros c Hc.
  unfold error, writeToTransports, setEnabled, new_CLILoggerProvider. simpl.
  unfold ConsoleTransport_write. simpl.
  destruct (Z.ltb_spec Error c) as [Hlt|_]; [unfold Error in *; lia|]. done.
Qed.

(** X11: the console transport of a logger keeps the level the logger was
    made with.  After [setLevel], a message below the level of the
    constructor is still not printed, and a message is printed, once, when
    its level is at least both levels. *)
Theorem setLevel_does_not_reach_the_console c l now level_ message
    (meta : gmap string Value) :
  ((level_ < c)%Z →
     log (setLevel (new_CLILoggerProvider toISOString c) l) now level_ message meta = [])
  ∧ ((l ≤ level_)%Z → (c ≤ level_)%Z →
     log (setLevel (new_CLILoggerProvider toISOString c) l) now level_ message meta
     = if (Error <=? level_)%Z
       then [ConsoleError (console_line toISOString now level_ message) (spread ∅ meta)]
       else [ConsoleLog (console_line toISOString now level_ message) (spread ∅ meta)]).
Proof.
  unfold log, setLevel, new_CLILoggerProvider, writeToTransports. simpl.
  unfold ConsoleTransport_write. simpl. split.
  - intros Hlt. destruct (level_ <? l)%Z; [done|].
    destruct (Z.ltb_spec level_ c); [done|lia].
  - intros Hl Hc. destruct (Z.ltb_spec level_ l); [lia|].
    destruct (Z.ltb_spec level_ c); [lia|]. simpl. by destruct (Error <=? level_)%Z.
Qed.

(** X12: a child logger writes to the transports of its parent what the
    parent would write for the same message with the context of the child
    under the metadata of the call. *)
Theorem child_logs_with_its_context
    (logger : Logger Time Value) context_ now level_ message error_ meta :
  log (child toISOString logger context_) now level_ message meta
  = log logger now level_ message (spread context_ meta)
  ∧ error (child toISOString logger context_) now message error_ meta
    = error logger now message error_ (spread context_ meta).
Proof.
  unfold log, error, child, writeToTransports, spread. simpl.
  by rewrite (assoc_L (∪) meta context_ (context logger)).
Qed.

End CLILoggerFacts.

(** * The format of a configuration file *)

Section FormatFacts.
Import CLIConfigurationProvider.

(** X13: a file whose name is a dot followed by characters other than a
    dot, .env and .yaml among them, has no extension for [extname], so its
    format is detected as JSON, in whatever directory it lies. *)
Theorem detectFormat_of_a_dotfile_is_JSON (prefix name_ : string) :
  at_directory prefix → plain name_ →
  detectFormat (String.append prefix (String "." name_)) = Some JSON.
Proof.
  intros Hdir Hplain. unfold detectFormat. by rewrite extname_dotfile.
Qed.

(** X14: for a file name that does not start with a dot, the format is
    read from what follows the last dot of the name, whatever the case of
    its letters and whatever the directory.  yaml and yml give YAML; env
    gives no format at all, because the enum has no member ENV and the
    function returns undefined; anything else gives JSON. *)
Theorem detectFormat_reads_the_last_extension
    (prefix : string) (c : ascii) (stem ext_ : string) :
  at_directory prefix →
  Ascii.eqb c "/" = false → Ascii.eqb c "." = false →
  has_char "/" stem = false → plain ext_ →
  detectFormat (String.append prefix (String.append (String c stem) (String "." ext_)))
  = if same_ignoring_case ext_ "yaml" || same_ignoring_case ext_ "yml" then Some YAML
    else if same_ignoring_case ext_ "env" then None
    else Some JSON.
Proof.
  intros Hdir Hc1 Hc2 Hstem Hplain. unfold detectFormat.
  rewrite extname_stem_ext by done.
  rewrite toLowerCase_cons, !same_ignoring_case_lower.
  change (Js.lower_ascii ".") with "."%char.
  change (Js.toLowerCase "yaml") with "yaml".
  change (Js.toLowerCase "yml") with "yml".
  change (Js.toLowerCase "env") with "env".
  change (String "." (Js.toLowerCase ext_) =? ".yaml")%string
    with (Js.toLowerCase ext_ =? "yaml")%string.
  change (String "." (Js.toLowerCase ext_) =? ".yml")%string
    with (Js.toLowerCase ext_ =? "yml")%string.
  change (String "." (Js.toLowerCase ext_) =? ".env")%string
    with (Js.toLowerCase ext_ =? "env")%string.
  done.
Qed.

End FormatFacts.

(** * The rotation of a log file *)

Section RotationFacts.
Import FileTransport.

Lemma rotate_from_S (filename : string) (i : nat) :
  rotate_from filename (S i)
  = Rename (if (Z.of_nat (S i) =? 1)%Z then filename else generation filename (Z.of_nat (S i)))
           (generation filename (Z.of_nat (S i) + 1))
    :: rotate_from filename i.
Proof. done. Qed.

(** Every rename moves the log file or one generation to the next
    generation. *)
Lemma elem_of_rotate_from (filename : string) (n : nat) (call : FsCall) :
  call ∈ rotate_from filename n →
  ∃ i, (1 ≤ i ≤ Z.of_nat n)%Z
       ∧ call = Rename (if (i =? 1)%Z then filename else generation filename i)
                       (generation filename (i + 1)).
Proof.
  induction n as [|n IH]; [by intros ?%elem_of_nil|].
  rewrite rotate_from_S. intros [->|Hin]%elem_of_cons.
  - exists (Z.of_nat (S n)). split; [lia|done].
  - destruct (IH Hin) as (i & Hi & ->). exists i. split; [lia|done].
Qed.

Lemma rotate_from_last (filename : string) (n : nat) :
  (0 < n)%nat →
  last (rotate_from filename n) = Some (Rename filename (generation filename 2)).
Proof.
  induction n as [|n IH]; [lia|]. intros _.
  rewrite rotate_from_S. destruct n as [|n]; [done|].
  rewrite last_cons, IH by lia. done.
Qed.

(** Each rename, after the first, moves a file to the path the rename before
    it moved a file away from. *)
Lemma rotate_from_chain (filename : string) (n i : nat) (prev call : FsCall) :
  rotate_from filename n !! i = Some prev →
  rotate_from filename n !! S i = Some call →
  ∃ oldPath, call = Rename oldPath (vacated prev).
Proof.
  revert i; induction n as [|n IH]; intros i Hprev Hcall; [done|].
  rewrite rotate_from_S in Hprev, Hcall.
  destruct i as [|i]; [|by eapply IH].
  cbn [lookup list_lookup] in Hprev, Hcall. simplify_eq.
  destruct n as [|n]; [done|].
  rewrite rotate_from_S in Hcall. cbn [lookup list_lookup] in Hcall. simplify_eq.
  eexists. cbn [vacated].
  destruct (Z.eqb_spec (Z.of_nat (S (S n))) 1); [lia|].
  do 2 f_equal. lia.
Qed.

(** X15: the rotation never renames a file onto a path it has not just
    cleared.  The new path of every rename is the path that the call before
    it removed (the oldest generation) or moved away (the generation after),
    whatever the file name and the number of files. *)
Theorem rotation_renames_onto_vacated_paths
    (filename : string) (maxFiles : Z) (i : nat) (prev call : FsCall) :
  rotateFiles filename maxFiles !! i = Some prev →
  rotateFiles filename maxFiles !! S i = Some call →
  ∃ oldPath, call = Rename oldPath (vacated prev).
Proof.
  unfold rotateFiles. cbn zeta. intros Hprev Hcall.
  destruct i as [|i]; [|by eapply rotate_from_chain].
  cbn [lookup list_lookup] in Hprev, Hcall. simplify_eq. cbn [vacated].
  destruct (Z.to_nat (maxFiles - 1)) as [|n] eqn:Hn; [done|].
  rewrite rotate_from_S in Hcall. cbn [lookup list_lookup] in Hcall. simplify_eq.
  eexists. do 2 f_equal. lia.
Qed.

(** X16: the rotation renames something exactly when [maxFiles] is at
    least 2.  With [maxFiles] 1 or less its only call removes a generation,
    and the log file stays where it is. *)
Theorem log_file_is_rotated_iff_two_files (filename : string) (maxFiles : Z) :
  (∃ oldPath newPath, Rename oldPath newPath ∈ rotateFiles filename maxFiles)
  ↔ (2 ≤ maxFiles)%Z.
Proof.
  unfold rotateFiles. cbn zeta. split.
  - intros (oldPath & newPath & [?|Hin]%elem_of_cons); [done|].
    apply elem_of_rotate_from in Hin as (i & Hi & _). lia.
  - intros Hmax.
    pose proof (rotate_from_last filename (Z.to_nat (maxFiles - 1)) ltac:(lia)) as Hlast.
    apply last_Some in Hlast as [l' Hl]. exists filename, (generation filename 2).
    rewrite Hl. set_solver.
Qed.

Lemma generation_of_plain_name (prefix name_ : string) :
  at_directory prefix → plain name_ → name_ ≠ "" →
  ∀ i, generation (String.append prefix name_) i = String "." (Js.number_string i).
Proof.
  intros Hdir Hplain Hne i. unfold generation, base, ext.
  rewrite extname_plain_name by done.
  unfold Js.slice_to. cbn [String.length].
  change (- Z.of_nat 0 <? 0)%Z with false. cbn match.
  change (- Z.of_nat 0)%Z with 0%Z.
  rewrite Z.min_l by apply Nat2Z.is_nonneg. change (Z.to_nat 0) with O.
  rewrite string_append_nil_r.
  by destruct (String.append prefix name_).
Qed.

Lemma generation_of_stem_ext (prefix : string) (c : ascii) (stem ext_ : string) :
  at_directory prefix →
  Ascii.eqb c "/" = false → Ascii.eqb c "." = false →
  has_char "/" stem = false → plain ext_ →
  ∀ i, generation (String.append prefix (String.append (String c stem) (String "." ext_))) i
       = String.append prefix
           (String.append (String c stem)
              (String "." (String.append (Js.number_string i) (String "." ext_)))).
Proof.
  intros Hdir Hc1 Hc2 Hstem Hplain i. unfold generation, base, ext.
  rewrite extname_stem_ext by done.
  unfold Js.slice_to.
  rewrite <-(string_append_assoc prefix (String c stem) (String "." ext_)).
  rewrite string_length_append.
  destruct (Z.ltb_spec (- Z.of_nat (String.length (String "." ext_))) 0) as [_|Hlt];
    [|cbn [String.length] in Hlt; lia].
  rewrite Z.max_l by lia.
  replace (Z.to_nat _) with (String.length (String.append prefix (String c stem))) by lia.
  rewrite substring_append_l.
  by rewrite !string_append_assoc.
Qed.

Lemma rotateFiles_paths (filename : string) (maxFiles : Z) (call : FsCall) (p : string) :
  call ∈ rotateFiles filename maxFiles → p ∈ paths call →
  p = filename ∨ ∃ i, p = generation filename i.
Proof.
  unfold rotateFiles. cbn zeta. intros [->|Hin]%elem_of_cons Hp.
  - apply list_elem_of_singleton in Hp as ->. eauto.
  - apply elem_of_rotate_from in Hin as (i & _ & ->). cbn [paths] in Hp.
    apply elem_of_cons in Hp as [->|Hp].
    + destruct (i =? 1)%Z; eauto.
    + apply list_elem_of_singleton in Hp as ->. eauto.
Qed.

(** X17: when the name of the log file has no dot, [base] is the empty
    string ([slice(0, -0)]), so every path of the rotation other than the
    log file itself is a dot and a number: a path relative to the working
    directory, not in the directory of the log file. *)
Theorem rotation_without_extension_leaves_the_directory
    (prefix name_ : string) (maxFiles : Z) (call : FsCall) (p : string) :
  at_directory prefix → plain name_ → name_ ≠ "" →
  call ∈ rotateFiles (String.append prefix name_) maxFiles → p ∈ paths call →
  p = String.append prefix name_ ∨ ∃ i, p = String "." (Js.number_string i).
Proof.
  intros Hdir Hplain Hne Hcall Hp.
  destruct (rotateFiles_paths _ _ _ _ Hcall Hp) as [->|[i ->]]; [by left|].
  right. exists i. by apply generation_of_plain_name.
Qed.

(** X18: when the name of the log file is [stem.ext], every path of the
    rotation other than the log file itself is [stem.N.ext] in the directory
    of the log file. *)
Theorem rotation_keeps_directory_and_extension
    (prefix : string) (c : ascii) (stem ext_ : string) (maxFiles : Z)
    (call : FsCall) (p : string) :
  at_directory prefix →
  Ascii.eqb c "/" = false → Ascii.eqb c "." = false →
  has_char "/" stem = false → plain ext_ →
  call ∈ rotateFiles
           (String.append prefix (String.append (String c stem) (String "." ext_)))
           maxFiles →
  p ∈ paths call →
  p = String.append prefix (String.append (String c stem) (String "." ext_))
  ∨ ∃ i, p = String.append prefix
               (String.append (String c stem)
                  (String "." (String.append (Js.number_string i) (String "." ext_)))).
Proof.
  intros Hdir Hc1 Hc2 Hstem Hplain Hcall Hp.
  destruct (rotateFiles_paths _ _ _ _ Hcall Hp) as [->|[i ->]]; [by left|].
  right. exists i. by apply generation_of_stem_ext.
Qed.

End RotationFacts.

(** * The properties above on the examples *)

Section MoreWitnesses.
Import Fixture Examples.

Lemma scan_finds_every_candidate_witness :
  scanForModeFiles tree_env 2 "/r" = Returned tree_files
  ∧ reaches tree_env "/r" ["sub"] "/r/sub"
  ∧ Forall walkable ["sub"]
  ∧ readdir tree_env "/r/sub" = Ok [file "b.yml"]
  ∧ ("b.yml" ∉ EXCLUDED_FILES)
  ∧ file_entry tree_env "/r" "/r/sub" "b.yml" ∈ tree_files.
Proof.
  assert (Hscan : scanForModeFiles tree_env 2 "/r" = Returned tree_files) by reflexivity.
  assert (Hreach : reaches tree_env "/r" ["sub"] "/r/sub").
  { apply (reaches_sub tree_env "/r" [] "/r"
             [dir "node_modules"; dir ".git"; dir "locked"; file "notes.txt";
              file "_draft.yaml"; file "MODE.YAML"; file "mode.Yml"; dir "sub"]
             (dir "sub") (reaches_root _ _) eq_refl);
      [|reflexivity].
    do 7 apply list_elem_of_further. apply list_elem_of_here. }
  assert (Hchain : Forall walkable ["sub"]).
  { apply Forall_singleton. split; [apply (bool_decide_eq_false_1 _); reflexivity|].
    intros H. discriminate H. }
  assert (Hex : "b.yml" ∉ EXCLUDED_FILES) by (apply (bool_decide_eq_false_1 _); reflexivity).
  split; [exact Hscan|]. split; [exact Hreach|]. split; [exact Hchain|].
  split; [reflexivity|]. split; [exact Hex|].
  apply (scan_finds_every_candidate tree_env 2 "/r" tree_files ["sub"] "/r/sub"
           [file "b.yml"] "b.yml" Hscan Hreach Hchain eq_refl).
  - apply list_elem_of_here.
  - exact Hex.
  - apply (bool_decide_eq_true_1 _). reflexivity.
  - reflexivity.
Defined.

Lemma unreadable_directory_contributes_nothing_witness :
  (readdir tree_env "/missing" = Err "ENOENT"
   ∧ loadModesFromDirectory tree_env 1 "/missing" = Returned [])
  ∧ (readdir tree_env "/r/locked" = Err "ENOENT"
     ∧ walk tree_env 2 "/r" "/r" [] =
         walk_entries tree_env (walk tree_env 1 "/r") "/r" "/r"
           ([dir "node_modules"; dir ".git"]
            ++ [file "notes.txt"; file "_draft.yaml"; file "MODE.YAML"; file "mode.Yml";
                dir "sub"]) [])
  ∧ (scanForModeFiles tree_env 2 "/r" = Returned tree_files
     ∧ reaches tree_env "/r" ["sub"] "/r/sub"
     ∧ Forall walkable ["sub"]
     ∧ file_entry tree_env "/r" "/r/sub" "b.yml" ∈ tree_files
     ∧ file_entry tree_env "/r" "/r" "MODE.YAML" ∈ tree_files).
Proof.
  destruct (unreadable_directory_contributes_nothing tree_env) as (Hroot & Hsub & Hrest).
  assert (Hscan : scanForModeFiles tree_env 2 "/r" = Returned tree_files) by reflexivity.
  assert (Hlist : readdir tree_env "/r"
                  = Ok ([dir "node_modules"; dir ".git"] ++ dir "locked"
                        :: [file "notes.txt"; file "_draft.yaml"; file "MODE.YAML";
                            file "mode.Yml"; dir "sub"])) by reflexivity.
  assert (Hreach : reaches tree_env "/r" ["sub"] "/r/sub").
  { apply (reaches_sub tree_env "/r" [] "/r" _ (dir "sub") (reaches_root _ _) Hlist);
      [|reflexivity].
    do 7 apply list_elem_of_further. apply list_elem_of_here. }
  assert (Hchain : Forall walkable ["sub"]).
  { apply Forall_singleton. split; [apply (bool_decide_eq_false_1 _); reflexivity|].
    intros H. discriminate H. }
  split; [split; [reflexivity|]|split; [split; [reflexivity|]|]].
  - apply (Hroot 0 "/missing" "ENOENT"). reflexivity.
  - apply (Hsub 0 "/r" "/r" [dir "node_modules"; dir ".git"] (dir "locked")
             [file "notes.txt"; file "_draft.yaml"; file "MODE.YAML"; file "mode.Yml";
              dir "sub"] [] "ENOENT"); reflexivity.
  - split; [exact Hscan|]. split; [exact Hreach|]. split; [exact Hchain|]. split.
    + apply (Hrest 2 "/r" tree_files [] "/r" [dir "node_modules"; dir ".git"] (dir "locked")
               [file "notes.txt"; file "_draft.yaml"; file "MODE.YAML"; file "mode.Yml";
                dir "sub"] "ENOENT" ["sub"] "/r/sub" [file "b.yml"] "b.yml"
               Hscan (reaches_root _ _) (Forall_nil_2 _) Hlist eq_refl eq_refl
               Hreach Hchain eq_refl).
      * apply list_elem_of_here.
      * apply (bool_decide_eq_false_1 _). reflexivity.
      * apply (bool_decide_eq_true_1 _). reflexivity.
      * reflexivity.
    + apply (Hrest 2 "/r" tree_files [] "/r" [dir "node_modules"; dir ".git"] (dir "locked")
               [file "notes.txt"; file "_draft.yaml"; file "MODE.YAML"; file "mode.Yml";
                dir "sub"] "ENOENT" [] "/r" _ "MODE.YAML"
               Hscan (reaches_root _ _) (Forall_nil_2 _) Hlist eq_refl eq_refl
               (reaches_root _ _) (Forall_nil_2 _) Hlist).
      * do 5 apply list_elem_of_further. apply list_elem_of_here.
      * apply (bool_decide_eq_false_1 _). reflexivity.
      * apply (bool_decide_eq_true_1 _). reflexivity.
      * reflexivity.
Defined.

Lemma returned_modes_have_distinct_slugs_witness :
  loadModesFromDirectory tree_env 2 "/r" =
    Returned [mode "alpha" "Alpha"; mode "beta" "Beta"; mode "gamma" "Gamma"]
  ∧ NoDup ["alpha"; "beta"; "gamma"].
Proof.
  split; [reflexivity|].
  apply (proj1 (returned_modes_have_distinct_slugs tree_env 2 "/r"
                  [mode "alpha" "Alpha"; mode "beta" "Beta"; mode "gamma" "Gamma"] eq_refl)).
Defined.

Lemma duplicate_error_names_first_conflict_witness :
  scanForModeFiles dup_env 1 "/r" = Returned dup_files
  ∧ loadModesFromDirectory dup_env 1 "/r" =
      Thrown (duplicate_message "dup" "/r/a.yaml" "/r/b.yaml")
  ∧ ∃ i j f g s,
      duplicate_message "dup" "/r/a.yaml" "/r/b.yaml"
      = duplicate_message s (fullPath f) (fullPath g)
      ∧ conflict dup_env dup_files i j s
      ∧ dup_files !! i = Some f ∧ dup_files !! j = Some g.
Proof.
  split; [reflexivity|]. split; [reflexivity|].
  destruct (duplicate_error_names_first_conflict dup_env 1 "/r" dup_files
              (duplicate_message "dup" "/r/a.yaml" "/r/b.yaml") eq_refl eq_refl)
    as (i & j & f & g & s & Hmsg & Hc & Hi & Hj & _).
  exists i, j, f, g, s. split; [exact Hmsg|]. split; [exact Hc|]. split; [exact Hi|exact Hj].
Defined.

Lemma scan_ignores_directories_not_walked_witness :
  (∀ chain dir_, reaches order_env "/r" chain dir_ → Forall walkable chain →
     elsewhere_readdir dir_ = readdir order_env dir_)
  ∧ elsewhere_readdir "/elsewhere" = Ok [file "x.yaml"]
  ∧ readdir order_env "/elsewhere" = Err "ENOENT"
  ∧ scanForModeFiles (with_readdir order_env elsewhere_readdir) 1 "/r"
    = scanForModeFiles order_env 1 "/r".
Proof.
  assert (Hagree : ∀ chain dir_, reaches order_env "/r" chain dir_ → Forall walkable chain →
                     elsewhere_readdir dir_ = readdir order_env dir_).
  { intros chain dir_ Hreach _.
    assert (dir_ = "/r") as ->; [|reflexivity].
    induction Hreach as [|chain dir_ entries entry Hreach IH Hdir Hin Hisdir]; [reflexivity|].
    subst dir_. injection Hdir as <-.
    apply elem_of_cons in Hin as [->|Hin]; [discriminate Hisdir|].
    apply elem_of_cons in Hin as [->|Hin]; [discriminate Hisdir|].
    by apply elem_of_nil in Hin. }
  split; [exact Hagree|]. split; [reflexivity|]. split; [reflexivity|].
  apply (scan_ignores_directories_not_walked order_env elsewhere_readdir 1 "/r" Hagree).
Defined.

Lemma unsupported_images_are_replaced_witness :
  ImageCleaning.not_supported (ImageCleaning.mkModelInfo None) = true
  ∧ ∃ out,
      ImageCleaning.maybeRemoveImageBlocks string_value with_image
        (Ok (ImageCleaning.mkModelInfo None)) = Returned out
      ∧ Forall2 (ImageCleaning.cleaned string_value) with_image out
      ∧ ∀ message block, message ∈ out → block ∈ ImageCleaning.blocks_of message →
          ImageCleaning.block_type block ≠ "image".
Proof.
  split; [reflexivity|].
  apply (unsupported_images_are_replaced string_value with_image
           (ImageCleaning.mkModelInfo None) eq_refl).
Defined.

Lemma messages_without_images_are_kept_witness :
  (∀ message block, message ∈ without_image → block ∈ ImageCleaning.blocks_of message →
     ImageCleaning.block_type block ≠ "image")
  ∧ ImageCleaning.maybeRemoveImageBlocks string_value without_image
      (Ok (ImageCleaning.mkModelInfo (Some false))) = Returned without_image.
Proof.
  assert (Hno : ∀ message block, message ∈ without_image →
                  block ∈ ImageCleaning.blocks_of message →
                  ImageCleaning.block_type block ≠ "image").
  { intros message block Hm Hb.
    apply elem_of_cons in Hm as [->|Hm].
    - apply elem_of_cons in Hb as [->|Hb]; [discriminate|].
      apply elem_of_cons in Hb as [->|Hb]; [discriminate|].
      by apply elem_of_nil in Hb.
    - apply elem_of_cons in Hm as [->|Hm]; [by apply elem_of_nil in Hb|].
      by apply elem_of_nil in Hm. }
  split; [exact Hno|].
  apply (messages_without_images_are_kept string_value without_image
           (ImageCleaning.mkModelInfo (Some false)) (or_intror Hno)).
Defined.

Lemma cleaning_twice_changes_nothing_witness :
  ImageCleaning.not_supported (ImageCleaning.mkModelInfo (Some false)) = true
  ∧ ImageCleaning.maybeRemoveImageBlocks string_value with_image
      (Ok (ImageCleaning.mkModelInfo (Some false))) = Returned without_image
  ∧ ImageCleaning.maybeRemoveImageBlocks string_value without_image
      (Ok (ImageCleaning.mkModelInfo None)) = Returned without_image.
Proof.
  split; [reflexivity|]. split; [reflexivity|].
  apply (proj1 (cleaning_twice_changes_nothing string_value with_image
                  (ImageCleaning.mkModelInfo (Some false)) (ImageCleaning.mkModelInfo None)
                  without_image eq_refl eq_refl)).
Defined.

Lemma error_is_written_by_a_disabled_logger_witness :
  (CLILogger.Info ≤ CLILogger.Error)%Z
  ∧ CLILogger.log
      (CLILogger.setEnabled (CLILogger.new_CLILoggerProvider toISOString CLILogger.Info) false)
      "2025-08-08T10:00:00.000Z" CLILogger.Error "disk full" (∅ : gmap string string) = []
  ∧ CLILogger.error
      (CLILogger.setEnabled (CLILogger.new_CLILoggerProvider toISOString CLILogger.Info) false)
      "2025-08-08T10:00:00.000Z" "disk full" None (∅ : gmap string string)
    = [CLILogger.ConsoleError "[2025-08-08T10:00:00.000Z] Error: disk full"
         (CLILogger.spread ∅ ∅)].
Proof.
  assert (Hle : (CLILogger.Info ≤ CLILogger.Error)%Z) by (unfold CLILogger.Info, CLILogger.Error; lia).
  destruct (error_is_written_by_a_disabled_logger toISOString
              (CLILogger.new_CLILoggerProvider toISOString CLILogger.Info)
              "2025-08-08T10:00:00.000Z" "disk full" None (∅ : gmap string string))
    as (Hlog & _ & Herr).
  split; [exact Hle|]. split; [apply Hlog|]. apply (Herr CLILogger.Info Hle).
Defined.

Lemma setLevel_does_not_reach_the_console_witness :
  (CLILogger.Info < CLILogger.Warn)%Z
  ∧ CLILogger.log
      (CLILogger.setLevel (CLILogger.new_CLILoggerProvider toISOString CLILogger.Warn)
         CLILogger.Debug)
      "2025-08-08T10:00:00.000Z" CLILogger.Info "started" (∅ : gmap string string) = [].
Proof.
  assert (Hlt : (CLILogger.Info < CLILogger.Warn)%Z) by (unfold CLILogger.Info, CLILogger.Warn; lia).
  split; [exact Hlt|].
  apply (proj1 (setLevel_does_not_reach_the_console toISOString CLILogger.Warn CLILogger.Debug
                  "2025-08-08T10:00:00.000Z" CLILogger.Info "started" ∅) Hlt).
Defined.

Lemma detectFormat_of_a_dotfile_is_JSON_witness :
  at_directory "/home/u/" ∧ plain "env"
  ∧ CLIConfigurationProvider.detectFormat "/home/u/.env"
    = Some CLIConfigurationProvider.JSON.
Proof.
  assert (Hdir : at_directory "/home/u/") by (right; exists "/home/u"; reflexivity).
  assert (Hplain : plain "env") by (split; reflexivity).
  split; [exact Hdir|]. split; [exact Hplain|].
  apply (detectFormat_of_a_dotfile_is_JSON "/home/u/" "env" Hdir Hplain).
Defined.

Lemma detectFormat_reads_the_last_extension_witness :
  at_directory "/etc/app/" ∧ has_char "/" "ettings.local" = false ∧ plain "YML"
  ∧ plain "Env" ∧ plain "toml"
  ∧ CLIConfigurationProvider.detectFormat "/etc/app/settings.local.YML"
    = Some CLIConfigurationProvider.YAML
  ∧ CLIConfigurationProvider.detectFormat "/etc/app/settings.local.Env" = None
  ∧ CLIConfigurationProvider.detectFormat "/etc/app/settings.local.toml"
    = Some CLIConfigurationProvider.JSON.
Proof.
  assert (Hdir : at_directory "/etc/app/") by (right; exists "/etc/app"; reflexivity).
  assert (Hyml : plain "YML") by (split; reflexivity).
  assert (Henv : plain "Env") by (split; reflexivity).
  assert (Htoml : plain "toml") by (split; reflexivity).
  split; [exact Hdir|]. split; [reflexivity|]. split; [exact Hyml|].
  split; [exact Henv|]. split; [exact Htoml|]. split; [|split].
  - apply (detectFormat_reads_the_last_extension "/etc/app/" "s" "ettings.local" "YML"
             Hdir eq_refl eq_refl eq_refl Hyml).
  - apply (detectFormat_reads_the_last_extension "/etc/app/" "s" "ettings.local" "Env"
             Hdir eq_refl eq_refl eq_refl Henv).
  - apply (detectFormat_reads_the_last_extension "/etc/app/" "s" "ettings.local" "toml"
             Hdir eq_refl eq_refl eq_refl Htoml).
Defined.

Lemma rotation_renames_onto_vacated_paths_witness :
  FileTransport.rotateFiles "/var/log/app.log" 3 !! 1%nat
    = Some (FileTransport.Rename "/var/log/app.2.log" "/var/log/app.3.log")
  ∧ FileTransport.rotateFiles "/var/log/app.log" 3 !! 2%nat
    = Some (FileTransport.Rename "/var/log/app.log" "/var/log/app.2.log")
  ∧ ∃ oldPath,
      FileTransport.Rename "/var/log/app.log" "/var/log/app.2.log"
      = FileTransport.Rename oldPath
          (vacated (FileTransport.Rename "/var/log/app.2.log" "/var/log/app.3.log")).
Proof.
  split; [reflexivity|]. split; [reflexivity|].
  apply (rotation_renames_onto_vacated_paths "/var/log/app.log" 3 1
           (FileTransport.Rename "/var/log/app.2.log" "/var/log/app.3.log")
           (FileTransport.Rename "/var/log/app.log" "/var/log/app.2.log") eq_refl eq_refl).
Defined.

Lemma rotation_without_extension_leaves_the_directory_witness :
  at_directory "/var/log/" ∧ plain "app" ∧ "app" ≠ ""
  ∧ FileTransport.Rename "/var/log/app" ".2" ∈ FileTransport.rotateFiles "/var/log/app" 3
  ∧ ".2" ∈ paths (FileTransport.Rename "/var/log/app" ".2")
  ∧ (".2" = "/var/log/app" ∨ ∃ i, ".2" = String "." (Js.number_string i)).
Proof.
  assert (Hdir : at_directory "/var/log/") by (right; exists "/var/log"; reflexivity).
  assert (Hplain : plain "app") by (split; reflexivity).
  assert (Hne : "app" ≠ "") by discriminate.
  assert (Hcall : FileTransport.Rename "/var/log/app" ".2"
                  ∈ FileTransport.rotateFiles "/var/log/app" 3).
  { change (FileTransport.rotateFiles "/var/log/app" 3)
      with [FileTransport.Unlink ".3"; FileTransport.Rename ".2" ".3";
            FileTransport.Rename "/var/log/app" ".2"].
    apply list_elem_of_further, list_elem_of_further, list_elem_of_here. }
  assert (Hp : ".2" ∈ paths (FileTransport.Rename "/var/log/app" ".2")).
  { apply list_elem_of_further, list_elem_of_here. }
  split; [exact Hdir|]. split; [exact Hplain|]. split; [exact Hne|].
  split; [exact Hcall|]. split; [exact Hp|].
  apply (rotation_without_extension_leaves_the_directory "/var/log/" "app" 3
           (FileTransport.Rename "/var/log/app" ".2") ".2" Hdir Hplain Hne Hcall Hp).
Defined.

Lemma rotation_keeps_directory_and_extension_witness :
  at_directory "/var/log/" ∧ has_char "/" "pp" = false ∧ plain "log"
  ∧ FileTransport.Rename "/var/log/app.log" "/var/log/app.2.log"
    ∈ FileTransport.rotateFiles "/var/log/app.log" 3
  ∧ "/var/log/app.2.log"
    ∈ paths (FileTransport.Rename "/var/log/app.log" "/var/log/app.2.log")
  ∧ ("/var/log/app.2.log" = "/var/log/app.log"
     ∨ ∃ i, "/var/log/app.2.log"
            = String.append "/var/log/"
                (String.append "app"
                   (String "." (String.append (Js.number_string i) ".log")))).
Proof.
  assert (Hdir : at_directory "/var/log/") by (right; exists "/var/log"; reflexivity).
  assert (Hplain : plain "log") by (split; reflexivity).
  assert (Hcall : FileTransport.Rename "/var/log/app.log" "/var/log/app.2.log"
                  ∈ FileTransport.rotateFiles "/var/log/app.log" 3).
  { change (FileTransport.rotateFiles "/var/log/app.log" 3)
      with [FileTransport.Unlink "/var/log/app.3.log";
            FileTransport.Rename "/var/log/app.2.log" "/var/log/app.3.log";
            FileTransport.Rename "/var/log/app.log" "/var/log/app.2.log"].
    apply list_elem_of_further, list_elem_of_further, list_elem_of_here. }
  assert (Hp : "/var/log/app.2.log"
               ∈ paths (FileTransport.Rename "/var/log/app.log" "/var/log/app.2.log")).
  { apply list_elem_of_further, list_elem_of_here. }
  split; [exact Hdir|]. split; [reflexivity|]. split; [exact Hplain|].
  split; [exact Hcall|]. split; [exact Hp|].
  apply (rotation_keeps_directory_and_extension "/var/log/" "a" "pp" "log" 3
           (FileTransport.Rename "/var/log/app.log" "/var/log/app.2.log")
           "/var/log/app.2.log" Hdir eq_refl eq_refl eq_refl Hplain Hcall Hp).
Defined.

End MoreWitnesses.
